(** * Release catalog and activation subsystem of the game update server

    A shallow embedding of the catalog code of [server.py]: the JSON catalog
    files, the upload / activate / delete handlers, the history query and the
    login check, followed by the properties of the release catalog.

    Modelling conventions.
    - A Python [str] is a [string] whose characters are the code points below
      256; the bytes of an uploaded file are a [string] as well.
    - A catalog entry is the dictionary built by [upload_game_version]; it is
      modelled as the record [Release] with exactly those six keys.
    - The file system is a finite map from path strings to the contents of
      regular files, together with the set of paths at which opening for
      writing and [os.remove] raise [OSError] (no permission, missing
      directory).  Paths are compared as strings.
    - A handler is a program [Prog] over atomic file-system operations, so the
      same handler text can be run alone ([run]) or interleaved with other
      requests ([run_schedule]).
    - [json.dump] / [json.load] belong to the Python standard library; they
      are taken through the interface [JsonLib], whose laws are proved for
      the text format of the catalog files ([text_json]). *)

From stdpp Require Import base option list strings gmap sorting.
From Stdlib Require Import Ascii String Decimal DecimalNat Permutation.

Local Open Scope string_scope.
Local Open Scope nat_scope.

(** ** Python string helpers *)

(** [str.isspace] below 256: TAB..CR, FS..US, the space, NEL and the
    no-break space. *)
Definition py_isspace (c : ascii) : bool :=
  let n := nat_of_ascii c in
  (((9 <=? n) && (n <=? 13)) || ((28 <=? n) && (n <=? 31)) || (n =? 32)
   || (n =? 133) || (n =? 160))%nat.

Fixpoint lstrip (s : string) : string :=
  match s with
  | EmptyString => EmptyString
  | String c s' => if py_isspace c then lstrip s' else s
  end.

Definition rstrip (s : string) : string := String.rev (lstrip (String.rev s)).

(** [s.strip()] *)
Definition strip (s : string) : string := rstrip (lstrip s).

(** [s.lower()] below 256: A..Z and the capital letters of Latin-1 (all of
    192..222 but the multiplication sign 215) move up by 32. *)
Definition lower_ascii (c : ascii) : ascii :=
  let n := nat_of_ascii c in
  if (((65 <=? n) && (n <=? 90))
      || ((192 <=? n) && (n <=? 222) && negb (n =? 215)))%nat
  then ascii_of_nat (n + 32) else c.

Fixpoint lower (s : string) : string :=
  match s with
  | EmptyString => EmptyString
  | String c s' => String (lower_ascii c) (lower s')
  end.

(** [s.rsplit('.', 1)[1]] when ['.' in s]: the text after the last dot. *)
Fixpoint rsplit_dot (s : string) : option string :=
  match s with
  | EmptyString => None
  | String c s' =>
      match rsplit_dot s' with
      | Some ext => Some ext
      | None => if Ascii.eqb c "." then Some s' else None
      end
  end.

Definition startswith_slash (s : string) : bool :=
  match s with
  | String c _ => Ascii.eqb c "/"
  | EmptyString => false
  end.

Definition endswith_slash (s : string) : bool := startswith_slash (String.rev s).

(** [os.path.join(a, b)] of [posixpath]. *)
Definition os_path_join (a b : string) : string :=
  if startswith_slash b then b
  else if bool_decide (a = "") || endswith_slash a then a +:+ b
  else a +:+ "/" +:+ b.

(** ** Configuration *)

Definition UPLOAD_FOLDER : string := "downloads".
Definition DATA_FOLDER : string := "data".
Definition ALLOWED_EXTENSIONS : list string := ["zip"].

Definition allowed_file (filename : string) : bool :=
  match rsplit_dot filename with
  | None => false
  | Some ext => bool_decide (lower ext ∈ ALLOWED_EXTENSIONS)
  end.

(** ** Data model *)

Record Release := mkRelease {
  version : string;
  download_url : string;
  release_notes : string;
  file_size : nat;
  release_date : string;
  is_active : bool
}.

Global Instance Release_eq_dec : EqDecision Release.
Proof. solve_decision. Defined.

(** [v['is_active'] = b] *)
Definition set_is_active (b : bool) (v : Release) : Release :=
  mkRelease (version v) (download_url v) (release_notes v) (file_size v)
            (release_date v) b.

Inductive Channel := Game | Launcher.

Global Instance Channel_eq_dec : EqDecision Channel.
Proof. solve_decision. Defined.

(** ** Exceptions and the file system *)

(** [FileNotFoundError] is raised by reading or removing a path that is not
    there; [OSError] stands for the other errors of the operating system. *)
Inductive exn :=
| FileNotFoundError (path : string)
| OSError (path : string)
| JSONDecodeError.

(** [str(e)]; for [OSError] the text of a permission error. *)
Definition str_exn (e : exn) : string :=
  match e with
  | FileNotFoundError p => "[Errno 2] No such file or directory: " +:+ p
  | OSError p => "[Errno 13] Permission denied: " +:+ p
  | JSONDecodeError => "Expecting value"
  end.

Record World := mkWorld {
  fs_files : gmap string string;
  fs_unwritable : gset string
}.

Definition set_files (f : gmap string string → gmap string string) (w : World) : World :=
  mkWorld (f (fs_files w)) (fs_unwritable w).

(** Atomic file-system operations, indexed by the type of their answer. *)
Inductive fs_op : Type → Type :=
| OsPathExists (p : string) : fs_op bool
| ReadText (p : string) : fs_op (exn + string)
| OpenW (p : string) : fs_op (exn + unit)
| WriteText (p : string) (s : string) : fs_op unit
| OsRemove (p : string) : fs_op (exn + unit)
| OsPathGetsize (p : string) : fs_op (exn + nat).

Definition fs_step {X} (o : fs_op X) (w : World) : X * World :=
  match o in fs_op X return X * World with
  | OsPathExists p => (bool_decide (is_Some (fs_files w !! p)), w)
  | ReadText p =>
      match fs_files w !! p with
      | Some s => (inr s, w)
      | None => (inl (FileNotFoundError p), w)
      end
  | OpenW p =>
      if decide (p ∈ fs_unwritable w) then (inl (OSError p), w)
      else (inr (), set_files (insert p "") w)
  | WriteText p s =>
      ((), set_files (insert p (default "" (fs_files w !! p) +:+ s)) w)
  | OsRemove p =>
      match fs_files w !! p with
      | None => (inl (FileNotFoundError p), w)
      | Some _ =>
          if decide (p ∈ fs_unwritable w) then (inl (OSError p), w)
          else (inr (), set_files (delete p) w)
      end
  | OsPathGetsize p =>
      match fs_files w !! p with
      | Some s => (inr (String.length s), w)
      | None => (inl (FileNotFoundError p), w)
      end
  end.

(** ** Programs over the file system *)

Inductive Prog (A : Type) : Type :=
| Ret (a : A)
| Raise (e : exn)
| Vis {X : Type} (o : fs_op X) (k : X → Prog A).

Arguments Ret {A} a.
Arguments Raise {A} e.
Arguments Vis {A X} o k.

Fixpoint prog_bind {A B} (f : A → Prog B) (p : Prog A) : Prog B :=
  match p with
  | Ret a => f a
  | Raise e => Raise e
  | Vis o k => Vis o (λ x, prog_bind f (k x))
  end.

Global Instance Prog_ret : MRet Prog := @Ret.
Global Instance Prog_bind : MBind Prog := @prog_bind.

(** [try: p except ...: h e] *)
Fixpoint try_except {A} (p : Prog A) (h : exn → Prog A) : Prog A :=
  match p with
  | Ret a => Ret a
  | Raise e => h e
  | Vis o k => Vis o (λ x, try_except (k x) h)
  end.

Definition call {X} (o : fs_op X) : Prog X := Vis o Ret.

(** An operation that may raise: the exception becomes [Raise]. *)
Definition call_exn {X} (o : fs_op (exn + X)) : Prog X :=
  Vis o (λ r, match r with inl e => Raise e | inr x => Ret x end).

(** Run a program to completion, alone. *)
Fixpoint run {A} (p : Prog A) (w : World) : (exn + A) * World :=
  match p with
  | Ret a => (inr a, w)
  | Raise e => (inl e, w)
  | Vis o k => let '(x, w') := fs_step o w in run (k x) w'
  end.

(** One atomic step of a program; a finished program stays as it is. *)
Definition step {A} (p : Prog A) (w : World) : Prog A * World :=
  match p with
  | Vis o k => let '(x, w') := fs_step o w in (k x, w')
  | _ => (p, w)
  end.

(** Threads are scheduled by index; each entry of the schedule lets one
    thread take one atomic step. *)
Fixpoint run_schedule {A} (sched : list nat) (pool : list (Prog A)) (w : World)
  : list (Prog A) * World :=
  match sched with
  | [] => (pool, w)
  | i :: sched' =>
      match pool !! i with
      | None => run_schedule sched' pool w
      | Some p =>
          let '(p', w') := step p w in
          run_schedule sched' (<[i := p']> pool) w'
      end
  end.

(** A context in which a program runs: it passes the operations of the
    program through, as [prog_bind f] and [try_except _ h] do. *)
Definition vis_context {A B} (K : Prog A → Prog B) : Prop :=
  ∀ X (o : fs_op X) k, K (Vis o k) = Vis o (λ x, K (k x)).

(** Number of atomic steps a program takes when it runs alone from [w]. *)
Fixpoint nsteps {A} (p : Prog A) (w : World) : nat :=
  match p with
  | Vis o k => let '(x, w') := fs_step o w in S (nsteps (k x) w')
  | _ => 0
  end.

(** The finished program that [run] reports. *)
Definition finished {A} (r : exn + A) : Prog A :=
  match r with
  | inl e => Raise e
  | inr a => Ret a
  end.

(** The file system after [text] has been written at [p]. *)
Definition write_file (p text : string) (w : World) : World :=
  set_files (insert p text) w.

(** The file system after [p] has been removed. *)
Definition remove_file (p : string) (w : World) : World :=
  set_files (delete p) w.

(** ** The JSON library

    [json_dump versions] is the text [json.dump(versions, f, indent=2)]
    writes; [json_load] is [json.load], with [None] for [JSONDecodeError].
    The two laws are the contract of the library the catalog code relies on:
    a dumped document loads back, and the empty text is not a document. *)
Class JsonLib := {
  json_dump : list Release → string;
  json_load : string → option (list Release);
  json_load_dump : ∀ versions, json_load (json_dump versions) = Some versions;
  json_load_empty : json_load "" = None
}.

(** ** Requests and responses *)

Record FileStorage := mkFileStorage {
  filename : string;
  stream : string
}.

Record Request := mkRequest {
  form : gmap string string;
  files : gmap string FileStorage;
  session : gmap string string
}.

(** The JSON bodies the handlers build, a redirect and a rendered page.  The
    key [file_size_formatted] of the upload answer, a rendering of the size,
    is left out. *)
Inductive Body :=
| JsonError (error : string)
| JsonMessage (message : string)
| JsonUploaded (message : string) (ver : string) (size : nat)
| JsonVersions (versions : list Release)
| Redirect (endpoint : string)
| Html (page : string).

Record Response := mkResponse {
  status : nat;
  body : Body
}.

Global Instance Body_eq_dec : EqDecision Body.
Proof. solve_decision. Defined.
Global Instance Response_eq_dec : EqDecision Response.
Proof. solve_decision. Defined.

(** [return jsonify({'error': msg}), code] *)
Definition error_response (code : nat) (msg : string) : Prog Response :=
  mret (mkResponse code (JsonError msg)).

(** [file.save(filepath)] of werkzeug: open the destination for writing and
    copy the stream into it. *)
Definition file_save (file : FileStorage) (filepath : string) : Prog unit :=
  _ ← call_exn (OpenW filepath);
  call (WriteText filepath (stream file)).

(** [versions.sort(key=..., reverse=True)]: Python's sort is stable, also
    with [reverse=True]; [insert_reverse] puts [x] in front of the first entry
    whose key is not greater. *)
Fixpoint insert_reverse {A} (key : A → string) (x : A) (l : list A) : list A :=
  match l with
  | [] => [x]
  | y :: l' =>
      if String.ltb (key x) (key y) then y :: insert_reverse key x l'
      else x :: y :: l'
  end.

Definition sort_reverse {A} (key : A → string) (l : list A) : list A :=
  foldr (insert_reverse key) [] l.

(** [a] may stand before [b] in a list that descends by [key]. *)
Definition descending {A} (key : A → string) (a b : A) : Prop :=
  (key b ≤ key a)%string.

(** ** Catalog store and handlers *)

Section Server.
Context `{JsonLib}.

Definition catalog_file (c : Channel) : string :=
  match c with
  | Game => "versions.json"
  | Launcher => "launcher_versions.json"
  end.

(** [load_versions] and [load_launcher_versions] differ in the file name
    only. *)
Definition load_catalog (c : Channel) : Prog (list Release) :=
  let versions_file := os_path_join DATA_FOLDER (catalog_file c) in
  present ← call (OsPathExists versions_file);
  if negb present then mret []
  else
    try_except
      (text ← call_exn (ReadText versions_file);
       match json_load text with
       | Some versions => mret versions
       | None => Raise JSONDecodeError
       end)
      (λ e, match e with
            | JSONDecodeError | FileNotFoundError _ => mret []
            | _ => Raise e
            end).

Definition catalog_path (c : Channel) : string :=
  os_path_join DATA_FOLDER (catalog_file c).

Definition artifact_path (name : string) : string :=
  os_path_join UPLOAD_FOLDER name.

(** What [load_catalog] returns, as a function of the file system. *)
Definition catalog (c : Channel) (w : World) : list Release :=
  match fs_files w !! os_path_join DATA_FOLDER (catalog_file c) with
  | Some text => default [] (json_load text)
  | None => []
  end.

Definition load_versions : Prog (list Release) := load_catalog Game.
Definition load_launcher_versions : Prog (list Release) := load_catalog Launcher.

(** [save_versions] and [save_launcher_versions]: [open(versions_file, 'w')]
    truncates the catalog file itself, then [json.dump] writes the text. *)
Definition save_catalog (c : Channel) (versions : list Release) : Prog unit :=
  let versions_file := os_path_join DATA_FOLDER (catalog_file c) in
  _ ← call_exn (OpenW versions_file);
  call (WriteText versions_file (json_dump versions)).

Definition save_versions : list Release → Prog unit := save_catalog Game.
Definition save_launcher_versions : list Release → Prog unit := save_catalog Launcher.

(** The channel an upload goes to: [upload_type == 'launcher'] or anything
    else. *)
Definition upload_channel (upload_type : string) : Channel :=
  if bool_decide (upload_type = "launcher") then Launcher else Game.

(** [f"launcher-v{version}.zip"] / [f"game-v{version}.zip"] *)
Definition artifact_name (c : Channel) (ver : string) : string :=
  match c with
  | Launcher => "launcher-v" +:+ ver +:+ ".zip"
  | Game => "game-v" +:+ ver +:+ ".zip"
  end.

Definition uploaded_message (c : Channel) : string :=
  match c with
  | Launcher => "Launcher version uploaded successfully"
  | Game => "Game version uploaded successfully"
  end.

(** The catalog an upload writes: the entry of the same version removed, all
    others deactivated, the new entry appended. *)
Definition upload_versions (version_info : Release) (versions : list Release)
  : list Release :=
  let versions :=
    filter (λ v, version v ≠ version version_info) versions in
  let versions := set_is_active false <$> versions in
  versions ++ [version_info].

(** [upload_game_version]; [now] is [datetime.utcnow().isoformat()].  The
    launcher branch and the game branch of the source do the same steps on
    their own catalog; [c] selects the branch. *)
Definition upload_game_version (now : string) (request : Request) : Prog Response :=
  try_except
    (match files request !! "game_file" with
     | None => error_response 400 "No file uploaded"
     | Some file =>
         let ver := strip (default "" (form request !! "version")) in
         let notes := default "" (form request !! "release_notes") in
         let upload_type := default "game" (form request !! "upload_type") in
         if bool_decide (ver = "") then error_response 400 "Version is required"
         else if bool_decide (filename file = "") then
           error_response 400 "No file selected"
         else if negb (allowed_file (filename file)) then
           error_response 400 "Only ZIP files are allowed"
         else
           let c := upload_channel upload_type in
           let name := artifact_name c ver in
           let filepath := os_path_join UPLOAD_FOLDER name in
           _ ← file_save file filepath;
           size ← call_exn (OsPathGetsize filepath);
           let version_info := mkRelease ver name notes size now true in
           versions ← load_catalog c;
           _ ← save_catalog c (upload_versions version_info versions);
           mret (mkResponse 200 (JsonUploaded (uploaded_message c) ver size))
     end)
    (λ e, error_response 500 ("Error uploading version: " +:+ str_exn e)).

(** The values [upload_game_version] computes from a request. *)
Definition upload_version (request : Request) : string :=
  strip (default "" (form request !! "version")).

Definition upload_target (request : Request) : Channel :=
  upload_channel (default "game" (form request !! "upload_type")).

Definition upload_info (now : string) (request : Request) (file : FileStorage)
  : Release :=
  mkRelease (upload_version request)
            (artifact_name (upload_target request) (upload_version request))
            (default "" (form request !! "release_notes"))
            (String.length (stream file)) now true.

Definition channel_label (c : Channel) : string :=
  match c with
  | Game => "Version "
  | Launcher => "Launcher version "
  end.

Definition channel_noun (c : Channel) : string :=
  match c with
  | Game => "version"
  | Launcher => "launcher version"
  end.

(** The loop [for v in versions: if v['version'] == version: ...; break]:
    index and value of the first entry of that version. *)
Definition find_target (ver : string) (versions : list Release)
  : option (nat * Release) :=
  list_find (λ v, version v = ver) versions.

(** Deactivate every entry, then activate the target object, which is the
    entry at index [i] of the same list. *)
Definition activate_versions (i : nat) (versions : list Release) : list Release :=
  alter (set_is_active true) i (set_is_active false <$> versions).

(** [activate_version] and [activate_launcher_version]. *)
Definition activate_catalog (c : Channel) (ver : string) : Prog Response :=
  try_except
    (versions ← load_catalog c;
     match find_target ver versions with
     | None => error_response 404 (channel_label c +:+ ver +:+ " not found")
     | Some (i, target_version) =>
         _ ← save_catalog c (activate_versions i versions);
         mret (mkResponse 200
                 (JsonMessage (channel_label c +:+ ver +:+ " activated successfully")))
     end)
    (λ e, error_response 500
            ("Error activating " +:+ channel_noun c +:+ ": " +:+ str_exn e)).

Definition activate_version : string → Prog Response := activate_catalog Game.
Definition activate_launcher_version : string → Prog Response :=
  activate_catalog Launcher.

Definition delete_versions (ver : string) (versions : list Release) : list Release :=
  filter (λ v, version v ≠ ver) versions.

(** [delete_version] and [delete_launcher_version]. *)
Definition delete_catalog (c : Channel) (ver : string) : Prog Response :=
  try_except
    (versions ← load_catalog c;
     match find_target ver versions with
     | None => error_response 404 (channel_label c +:+ ver +:+ " not found")
     | Some (i, target_version) =>
         if is_active target_version then
           error_response 400
             ("Cannot delete active " +:+ channel_noun c
              +:+ ". Activate another version first.")
         else
           let filepath := os_path_join UPLOAD_FOLDER (download_url target_version) in
           present ← call (OsPathExists filepath);
           _ ← (if (present : bool) then call_exn (OsRemove filepath) else Ret ());
           _ ← save_catalog c (delete_versions ver versions);
           mret (mkResponse 200
                   (JsonMessage (channel_label c +:+ ver +:+ " deleted successfully")))
     end)
    (λ e, error_response 500
            ("Error deleting " +:+ channel_noun c +:+ ": " +:+ str_exn e)).

Definition delete_version : string → Prog Response := delete_catalog Game.
Definition delete_launcher_version : string → Prog Response :=
  delete_catalog Launcher.

Definition history_error (c : Channel) : string :=
  match c with
  | Game => "Error retrieving version history: "
  | Launcher => "Error retrieving launcher history: "
  end.

(** [get_version_history] and [get_launcher_history]. *)
Definition get_history (c : Channel) : Prog Response :=
  try_except
    (versions ← load_catalog c;
     let versions := sort_reverse release_date versions in
     mret (mkResponse 200 (JsonVersions versions)))
    (λ e, error_response 500 (history_error c +:+ str_exn e)).

Definition get_version_history : Prog Response := get_history Game.
Definition get_launcher_history : Prog Response := get_history Launcher.

(** [get_active_version] / [get_active_launcher_version]. *)
Definition get_active (c : Channel) : Prog (option Release) :=
  versions ← load_catalog c;
  mret (snd <$> list_find (λ v, is_active v = true) versions).

(** ** The login check and the routes *)

(** The decorator [login_required]. *)
Definition login_required (f : Request → Prog Response) (request : Request)
  : Prog Response :=
  if decide (session request !! "user_id" = None) then
    mret (mkResponse 302 (Redirect "login"))
  else f request.

(** [admin_interface] renders the admin page. *)
Definition admin_interface (request : Request) : Prog Response :=
  mret (mkResponse 200 (Html "admin_html")).

Inductive Route :=
| POST_api_upload
| POST_api_version_activate (ver : string)
| POST_api_launcher_version_activate (ver : string)
| DELETE_api_version (ver : string)
| DELETE_api_launcher_version (ver : string)
| GET_api_version_history
| GET_api_launcher_history
| GET_admin.

(** The view function registered for each route, with the decorators the
    source puts on it. *)
Definition view_function (now : string) (r : Route) : Request → Prog Response :=
  match r with
  | POST_api_upload => upload_game_version now
  | POST_api_version_activate ver => λ _ : Request, activate_version ver
  | POST_api_launcher_version_activate ver => λ _ : Request, activate_launcher_version ver
  | DELETE_api_version ver => λ _ : Request, delete_version ver
  | DELETE_api_launcher_version ver => λ _ : Request, delete_launcher_version ver
  | GET_api_version_history => λ _ : Request, get_version_history
  | GET_api_launcher_history => λ _ : Request, get_launcher_history
  | GET_admin => login_required admin_interface
  end.

(** Serving one request, alone: the response and the new file system.  A
    view function ends in [except Exception], so no exception escapes; the
    [inl] case is kept as a 500 response for totality. *)
Definition serve (now : string) (r : Route) (request : Request) (w : World)
  : Response * World :=
  match run (view_function now r request) w with
  | (inr resp, w') => (resp, w')
  | (inl e, w') => (mkResponse 500 (JsonError (str_exn e)), w')
  end.

End Server.

(** ** Path resolution *)





(** ** Vocabulary of the specification *)

(** The requests the validation of [upload_game_version] turns down: no
    file part, an empty version once stripped, an empty file name, or a file
    name that is not on the allow-list. *)
Definition rejected (request : Request) : Prop :=
  match files request !! "game_file" with
  | None => True
  | Some file =>
      upload_version request = "" ∨ filename file = ""
      ∨ allowed_file (filename file) = false
  end.

Global Instance rejected_dec request : Decision (rejected request).
Proof. unfold rejected. destruct (files request !! "game_file"); apply _. Defined.

(** Number of entries with [is_active = true]. *)
Definition active_count (versions : list Release) : nat :=
  List.length (filter (λ v, is_active v = true) versions).

(** At most one active release, and exactly one iff the catalog is not
    empty. *)
Definition catalog_invariant (versions : list Release) : Prop :=
  active_count versions ≤ 1 ∧ (active_count versions = 1 ↔ versions ≠ []).

(** Version keys are unique. *)
Definition unique_versions (versions : list Release) : Prop :=
  NoDup (version <$> versions).

(** The state a catalog is in after any sequence of mutations. *)
Definition well_formed (versions : list Release) : Prop :=
  unique_versions versions ∧ (versions = [] ∨ active_count versions = 1).

(** The mutations of the boundary. *)
Inductive Operation :=
| Upload (now : string) (request : Request)
| Activate (c : Channel) (ver : string)
| Delete (c : Channel) (ver : string).

Section Operations.
Context `{JsonLib}.

Definition handler (op : Operation) : Prog Response :=
  match op with
  | Upload now request => upload_game_version now request
  | Activate c ver => activate_catalog c ver
  | Delete c ver => delete_catalog c ver
  end.

(** The file system after one operation. *)
Definition perform (op : Operation) (w : World) : World := (run (handler op) w).2.

(** The file systems after each operation of a sequence. *)
Fixpoint states (ops : list Operation) (w : World) : list World :=
  match ops with
  | [] => []
  | op :: ops' => perform op w :: states ops' (perform op w)
  end.

(** Two requests served concurrently are serialized when every interleaving
    that completes both leaves the catalog that one of the two sequential
    orders leaves. *)
Definition serialized (c : Channel) (p q : Prog Response) (w : World) : Prop :=
  ∀ sched rp rq w',
    run_schedule sched [p; q] w = ([Ret rp; Ret rq], w') →
    catalog c w' = catalog c (run q (run p w).2).2
    ∨ catalog c w' = catalog c (run p (run q w).2).2.

(** A history query served concurrently with a mutation [p] sees a whole
    document when it reports the catalog as it was before [p] or as [p]
    leaves it. *)
Definition reads_whole_document (c : Channel) (p : Prog Response) (w : World)
  : Prop :=
  ∀ sched rp versions w',
    run_schedule sched [p; get_history c] w
    = ([Ret rp; Ret (mkResponse 200 (JsonVersions versions))], w') →
    versions ≡ₚ catalog c w ∨ versions ≡ₚ catalog c (run p w).2.

End Operations.

(** ** A reference implementation of the JSON interface

    The text [json.dump(versions, f, indent=2)] writes for a list of
    releases, and a reader for the texts of that shape.  It is used to run
    the handlers on concrete inputs. *)

(** The characters the texts are built from. *)
Definition quote : ascii := ascii_of_nat 34.
Definition backslash : ascii := ascii_of_nat 92.
Definition newline : ascii := ascii_of_nat 10.

Definition hex_digit (n : nat) : ascii :=
  if n <? 10 then ascii_of_nat (48 + n) else ascii_of_nat (87 + n).

(** One character of a string literal, as [json.dumps] writes it with
    [ensure_ascii]: the short escapes, the character itself from the space to
    the tilde, and the four-digit escape otherwise. *)
Definition escape_char (c : ascii) : string :=
  let n := nat_of_ascii c in
  if n =? 34 then String backslash (String quote "")
  else if n =? 92 then String backslash (String backslash "")
  else if n =? 10 then String backslash "n"
  else if n =? 13 then String backslash "r"
  else if n =? 9 then String backslash "t"
  else if n =? 8 then String backslash "b"
  else if n =? 12 then String backslash "f"
  else if (32 <=? n) && (n <=? 126) then String c ""
  else String backslash
         ("u00" +:+ String (hex_digit (n / 16)) (String (hex_digit (n mod 16)) "")).

Fixpoint escape (s : string) : string :=
  match s with
  | EmptyString => EmptyString
  | String c s' => escape_char c +:+ escape s'
  end.

Definition dump_string (s : string) : string :=
  String quote (escape s +:+ String quote "").

Fixpoint dump_uint (d : uint) : string :=
  match d with
  | Nil => ""
  | D0 d => String "0" (dump_uint d)
  | D1 d => String "1" (dump_uint d)
  | D2 d => String "2" (dump_uint d)
  | D3 d => String "3" (dump_uint d)
  | D4 d => String "4" (dump_uint d)
  | D5 d => String "5" (dump_uint d)
  | D6 d => String "6" (dump_uint d)
  | D7 d => String "7" (dump_uint d)
  | D8 d => String "8" (dump_uint d)
  | D9 d => String "9" (dump_uint d)
  end.

Definition dump_nat (n : nat) : string := dump_uint (Nat.to_uint n).

Definition dump_bool (b : bool) : string := if b then "true" else "false".

Definition nl : string := String newline "".

(** ["key": ] at the indentation of an object member. *)
Definition member (key : string) : string :=
  "    " +:+ String quote (key +:+ String quote ": ").

Definition dump_release (r : Release) : string :=
  "  {" +:+ nl
  +:+ member "version" +:+ dump_string (version r) +:+ "," +:+ nl
  +:+ member "download_url" +:+ dump_string (download_url r) +:+ "," +:+ nl
  +:+ member "release_notes" +:+ dump_string (release_notes r) +:+ "," +:+ nl
  +:+ member "file_size" +:+ dump_nat (file_size r) +:+ "," +:+ nl
  +:+ member "release_date" +:+ dump_string (release_date r) +:+ "," +:+ nl
  +:+ member "is_active" +:+ dump_bool (is_active r) +:+ nl
  +:+ "  }".

Fixpoint dump_releases (r : Release) (rs : list Release) : string :=
  match rs with
  | [] => dump_release r +:+ nl +:+ "]"
  | r' :: rs' => dump_release r +:+ "," +:+ nl +:+ dump_releases r' rs'
  end.

(** [json.dump(versions, f, indent=2)] *)
Definition text_dump (versions : list Release) : string :=
  match versions with
  | [] => "[]"
  | r :: rs => "[" +:+ nl +:+ dump_releases r rs
  end.


(** *** Reading *)

(** [expect p s]: [s] without its prefix [p]. *)
Fixpoint expect (p s : string) : option string :=
  match p with
  | EmptyString => Some s
  | String a p' =>
      match s with
      | String b s' => if Ascii.eqb a b then expect p' s' else None
      | EmptyString => None
      end
  end.

Definition hex_value (c : ascii) : option nat :=
  let n := nat_of_ascii c in
  if (48 <=? n) && (n <=? 57) then Some (n - 48)
  else if (97 <=? n) && (n <=? 102) then Some (n - 87)
  else None.

(** The character an escape sequence stands for; [s] is the text after the
    backslash. *)
Definition load_escape (s : string) : option (ascii * string) :=
  match s with
  | String c s' =>
      let n := nat_of_ascii c in
      if n =? 34 then Some (quote, s')
      else if n =? 92 then Some (backslash, s')
      else if n =? 110 then Some (ascii_of_nat 10, s')
      else if n =? 114 then Some (ascii_of_nat 13, s')
      else if n =? 116 then Some (ascii_of_nat 9, s')
      else if n =? 98 then Some (ascii_of_nat 8, s')
      else if n =? 102 then Some (ascii_of_nat 12, s')
      else if n =? 117 then
        match s' with
        | String z1 (String z2 (String h (String l s''))) =>
            if Ascii.eqb z1 "0" && Ascii.eqb z2 "0" then
              hi ← hex_value h; lo ← hex_value l;
              Some (ascii_of_nat (16 * hi + lo), s'')
            else None
        | _ => None
        end
      else None
  | EmptyString => None
  end.

(** The body of a string literal up to its closing quote. *)
Fixpoint load_chars (fuel : nat) (s : string) : option (string * string) :=
  match fuel with
  | 0 => None
  | S fuel' =>
      match s with
      | EmptyString => None
      | String c s' =>
          if Ascii.eqb c quote then Some (EmptyString, s')
          else if Ascii.eqb c backslash then
            '(a, s'') ← load_escape s';
            '(t, rest) ← load_chars fuel' s'';
            Some (String a t, rest)
          else
            '(t, rest) ← load_chars fuel' s';
            Some (String c t, rest)
      end
  end.

Definition load_string (s : string) : option (string * string) :=
  s' ← expect (String quote "") s;
  load_chars (String.length s') s'.

(** The decimal digit a character stands for. *)
Definition load_digit (c : ascii) : option (uint → uint) :=
  let n := nat_of_ascii c in
  if n =? 48 then Some D0
  else if n =? 49 then Some D1
  else if n =? 50 then Some D2
  else if n =? 51 then Some D3
  else if n =? 52 then Some D4
  else if n =? 53 then Some D5
  else if n =? 54 then Some D6
  else if n =? 55 then Some D7
  else if n =? 56 then Some D8
  else if n =? 57 then Some D9
  else None.

(** The longest prefix of digits. *)
Fixpoint load_uint (s : string) : uint * string :=
  match s with
  | EmptyString => (Nil, s)
  | String c s' =>
      match load_digit c with
      | Some digit => let '(d, rest) := load_uint s' in (digit d, rest)
      | None => (Nil, s)
      end
  end.

Definition load_nat (s : string) : option (nat * string) :=
  match load_uint s with
  | (Nil, _) => None
  | (d, rest) => Some (Nat.of_uint d, rest)
  end.

Definition load_bool (s : string) : option (bool * string) :=
  match expect "true" s with
  | Some rest => Some (true, rest)
  | None => rest ← expect "false" s; Some (false, rest)
  end.

Definition load_release (s : string) : option (Release * string) :=
  s ← expect ("  {" +:+ nl +:+ member "version") s;
  '(v, s) ← load_string s;
  s ← expect ("," +:+ nl +:+ member "download_url") s;
  '(u, s) ← load_string s;
  s ← expect ("," +:+ nl +:+ member "release_notes") s;
  '(n, s) ← load_string s;
  s ← expect ("," +:+ nl +:+ member "file_size") s;
  '(z, s) ← load_nat s;
  s ← expect ("," +:+ nl +:+ member "release_date") s;
  '(d, s) ← load_string s;
  s ← expect ("," +:+ nl +:+ member "is_active") s;
  '(a, s) ← load_bool s;
  s ← expect (nl +:+ "  }") s;
  Some (mkRelease v u n z d a, s).

Fixpoint load_releases (fuel : nat) (s : string) : option (list Release) :=
  match fuel with
  | 0 => None
  | S fuel' =>
      '(r, s) ← load_release s;
      match expect ("," +:+ nl) s with
      | Some s' => rs ← load_releases fuel' s'; Some (r :: rs)
      | None =>
          s' ← expect (nl +:+ "]") s;
          if bool_decide (s' = "") then Some [r] else None
      end
  end.

(** [json.load], for the texts [text_dump] writes. *)
Definition text_load (text : string) : option (list Release) :=
  if bool_decide (text = "[]") then Some []
  else
    s ← expect ("[" +:+ nl) text;
    load_releases (String.length text) s.

(** ** Concrete requests and file systems *)

Definition empty_world : World := mkWorld ∅ ∅.

(** An upload of [payload] under the client file name [name]. *)
Definition upload_request (ver name payload : string) : Request :=
  mkRequest {[ "version" := ver ]} {[ "game_file" := mkFileStorage name payload ]} ∅.

Definition release_1_0 : Release :=
  mkRelease "1.0" "game-v1.0.zip" "" 3 "2024-01-01T00:00:00" true.

Definition release_1_1 : Release :=
  mkRelease "1.1" "game-v1.1.zip" "" 4 "2024-02-01T00:00:00" false.

(** A game catalog with two releases and their artifacts, version 1.0 being
    active. *)
Definition two_releases : World :=
  mkWorld
    {[ catalog_path Game := text_dump [release_1_0; release_1_1];
       artifact_path "game-v1.0.zip" := "abc";
       artifact_path "game-v1.1.zip" := "abcd" ]}
    ∅.



(** ** The version query *)

(** The JSON bodies of [/api/version] and [/api/launcher/version]. *)
Inductive VersionBody :=
| VersionInfo (Version DownloadUrl ReleaseNotes : string) (FileSize : nat)
| VersionError (error : string).

Section Query.
Context `{JsonLib}.

Definition no_version_message (c : Channel) : string :=
  match c with
  | Game => "No active version available"
  | Launcher => "No launcher version available"
  end.

Definition version_error (c : Channel) : string :=
  match c with
  | Game => "Error retrieving version info: "
  | Launcher => "Error retrieving launcher version info: "
  end.

(** [get_current_version] and [get_launcher_version]; [base_url] is the
    configuration value [BASE_URL].  The answer is the status with the body. *)
Definition get_current (base_url : string) (c : Channel) : Prog (nat * VersionBody) :=
  try_except
    (active_version ← get_active c;
     match active_version with
     | None => mret (404, VersionError (no_version_message c))
     | Some active_version =>
         let url := download_url active_version in
         let url :=
           if negb (String.prefix "http" url)
           then base_url +:+ "/downloads/" +:+ url else url in
         mret (200, VersionInfo (version active_version) url
                      (release_notes active_version) (file_size active_version))
     end)
    (λ e, mret (500, VersionError (version_error c +:+ str_exn e))).

Definition get_current_version (base_url : string) : Prog (nat * VersionBody) :=
  get_current base_url Game.
Definition get_launcher_version (base_url : string) : Prog (nat * VersionBody) :=
  get_current base_url Launcher.

End Query.

(** ** Catalog transitions

    What a successful operation does to the catalog of its channel. *)
Inductive transition (c : Channel)
  : Operation → list Release → list Release → Prop :=
| transition_upload now request file versions :
    files request !! "game_file" = Some file →
    ¬ rejected request →
    upload_target request = c →
    transition c (Upload now request) versions
      (upload_versions (upload_info now request file) versions)
| transition_activate ver i t versions :
    find_target ver versions = Some (i, t) →
    transition c (Activate c ver) versions (activate_versions i versions)
| transition_delete ver i t versions :
    find_target ver versions = Some (i, t) →
    is_active t = false →
    transition c (Delete c ver) versions (delete_versions ver versions).

(** The channel an operation works on. *)
Definition channel_of (op : Operation) : Channel :=
  match op with
  | Upload _ request => upload_target request
  | Activate c _ => c
  | Delete c _ => c
  end.

(** The first active entry, as [get_active_version] finds it. *)
Definition active_release (versions : list Release) : option Release :=
  snd <$> list_find (λ v, is_active v = true) versions.

(** An entry as an upload on channel [c] names it. *)
Definition named_by_version (c : Channel) (v : Release) : Prop :=
  version v ≠ "" ∧ download_url v = artifact_name c (version v).



(** ** The user database

    The table [users] of [users.db]: its rows in insertion order, and the
    largest id handed out so far ([AUTOINCREMENT]). *)
Record User := mkUser {
  user_id : nat;
  username : string;
  password_hash : string;
  created_at : string;
  is_admin : bool
}.

Record UserDb := mkUserDb {
  users : list User;
  sequence : nat
}.

(** The password functions of werkzeug: [generate_password_hash] draws a salt,
    and a hash it made checks against its password. *)
Class PasswordLib := {
  generate_password_hash : string → string → string;
  check_password_hash : string → string → bool;
  check_generated : ∀ password salt,
    check_password_hash (generate_password_hash password salt) password = true
}.

(** [INSERT INTO users (username, password_hash) VALUES (?, ?)]: the id is
    the next of the sequence, [created_at] the current time, [is_admin] true;
    [None] is the [IntegrityError] of the [UNIQUE] constraint on [username]. *)
Definition insert_user (name hash now : string) (db : UserDb) : option UserDb :=
  if bool_decide (name ∈ username <$> users db) then None
  else Some (mkUserDb
               (users db ++ [mkUser (S (sequence db)) name hash now true])
               (S (sequence db))).

Section Users.
Context `{PasswordLib}.

(** [init_database], the table being there: the default administrator is
    inserted when the table has no row. *)
Definition init_database (salt now : string) (db : UserDb) : UserDb :=
  if List.length (users db) =? 0 then
    default db (insert_user "admin" (generate_password_hash "admin123" salt) now db)
  else db.

(** [SELECT id, password_hash FROM users WHERE username = ?] and the check of
    the password. *)
Definition authenticate_user (name password : string) (db : UserDb) : option nat :=
  match list_find (λ u, username u = name) (users db) with
  | Some (_, user) =>
      if check_password_hash (password_hash user) password
      then Some (user_id user) else None
  | None => None
  end.

Definition create_user (name password salt now : string) (db : UserDb)
  : bool * UserDb :=
  match insert_user name (generate_password_hash password salt) now db with
  | Some db' => (true, db')
  | None => (false, db)
  end.

Definition delete_user (id : nat) (db : UserDb) : bool * UserDb :=
  if List.length (users db) <=? 1 then (false, db)
  else (true, mkUserDb (filter (λ u, user_id u ≠ id) (users db)) (sequence db)).


(** The message [delete_user_route] flashes, and the database it leaves. *)
Definition delete_user_route (id : nat) (db : UserDb) : string * string * UserDb :=
  let '(deleted, db') := delete_user id db in
  if deleted then ("User deleted successfully!", "success", db')
  else ("Cannot delete user", "error", db').

(** A change of the user table. *)
Inductive UserOp :=
| CreateUser (name password salt now : string)
| DeleteUser (id : nat).

Definition user_step (op : UserOp) (db : UserDb) : UserDb :=
  match op with
  | CreateUser name password salt now => (create_user name password salt now db).2
  | DeleteUser id => (delete_user id db).2
  end.

End Users.

(** A password library for running the user functions on concrete inputs:
    the hash is the password itself. *)
Global Instance plain_password : PasswordLib :=
  {| generate_password_hash := λ password _, password;
     check_password_hash := λ hash password, bool_decide (hash = password);
     check_generated := λ password _, bool_decide_eq_true_2 _ eq_refl |}.

(** A table with the default administrator and one more user. *)
Definition two_users : UserDb :=
  mkUserDb [mkUser 1 "admin" "admin123" "2024-01-01 00:00:00" true;
            mkUser 2 "alice" "wonderland" "2024-01-02 00:00:00" true] 2.

(** The table as the database keeps it: user names and ids are unique, and
    the ids run from 1 to the sequence. *)
Definition table_ok (db : UserDb) : Prop :=
  NoDup (username <$> users db)
  ∧ NoDup (user_id <$> users db)
  ∧ Forall (λ u, 1 ≤ user_id u ≤ sequence db) (users db).

(** * Properties *)

(** ** Running programs *)

Lemma run_bind {A B} (p : Prog A) (f : A → Prog B) w :
  run (p ≫= f) w =
  match run p w with
  | (inr a, w') => run (f a) w'
  | (inl e, w') => (inl e, w')
  end.
Proof.
  revert w. induction p as [a|e|X o k IH]; intros w; try reflexivity.
  cbn. destruct (fs_step o w) as [x w']. apply IH.
Qed.

Lemma run_try_except {A} (p : Prog A) h w :
  run (try_except p h) w =
  match run p w with
  | (inr a, w') => (inr a, w')
  | (inl e, w') => run (h e) w'
  end.
Proof.
  revert w. induction p as [a|e|X o k IH]; intros w; try reflexivity.
  cbn. destruct (fs_step o w) as [x w']. apply IH.
Qed.

(** ** Interleaved execution *)

Lemma vis_context_id {A} : vis_context (λ p : Prog A, p).
Proof. by intros X o k. Qed.

Lemma vis_context_bind {A B C} (f : B → Prog C) (K : Prog A → Prog B) :
  vis_context K → vis_context (λ p, K p ≫= f).
Proof. intros HK X o k. by rewrite HK. Qed.

Lemma vis_context_try {A B} (h : exn → Prog B) (K : Prog A → Prog B) :
  vis_context K → vis_context (λ p, try_except (K p) h).
Proof. intros HK X o k. by rewrite HK. Qed.

Lemma vis_context_handler {A B} (f : A → Prog B) (h : exn → Prog B) :
  vis_context (λ p, try_except (p ≫= f) h).
Proof. apply vis_context_try, vis_context_bind, vis_context_id. Qed.

(** Scheduling thread [i] for as many steps as the program [p] it is about to
    run needs brings it to the end of [p]. *)
Lemma run_schedule_phase {A B} (K : Prog A → Prog B) (p : Prog A) i pool w rest :
  vis_context K →
  pool !! i = Some (K p) →
  run_schedule (replicate (nsteps p w) i ++ rest) pool w
  = run_schedule rest (<[i := K (finished (run p w).1)]> pool) (run p w).2.
Proof.
  intros HK. revert pool w.
  induction p as [a|e|X o k IH]; intros pool w Hi.
  - cbn. by rewrite list_insert_id.
  - cbn. by rewrite list_insert_id.
  - cbn [nsteps run]. destruct (fs_step o w) as [x w1] eqn:E.
    cbn [replicate List.app run_schedule]. rewrite Hi, HK. cbn [step]. rewrite E.
    rewrite IH.
    + by rewrite list_insert_insert_eq.
    + apply list_lookup_insert_eq. by eapply lookup_lt_Some.
Qed.

Lemma schedule_handler_phase {A B} (p : Prog A) (f : A → Prog B) h i pool w rest :
  pool !! i = Some (try_except (p ≫= f) h) →
  run_schedule (replicate (nsteps p w) i ++ rest) pool w
  = run_schedule rest (<[i := try_except (finished (run p w).1 ≫= f) h]> pool)
      (run p w).2.
Proof.
  intros Hi.
  apply (run_schedule_phase (λ p, try_except (p ≫= f) h));
    [apply vis_context_handler|done].
Qed.

(** ** Lists of releases *)

Lemma find_target_None ver versions :
  find_target ver versions = None ↔ ver ∉ version <$> versions.
Proof.
  unfold find_target. rewrite list_find_None, Forall_forall, list_elem_of_fmap.
  split.
  - intros Hall (v & -> & Hv). by apply (Hall v).
  - intros Hnot v Hv Heq. apply Hnot. by exists v.
Qed.

Lemma find_target_Some ver versions i t :
  find_target ver versions = Some (i, t) →
  versions !! i = Some t ∧ version t = ver.
Proof. unfold find_target. intros (? & ? & _)%list_find_Some. done. Qed.

Lemma find_target_is_Some ver versions :
  ver ∈ version <$> versions → is_Some (find_target ver versions).
Proof.
  intros Hin. destruct (find_target ver versions) eqn:E; [eauto|].
  by apply find_target_None in E.
Qed.

Lemma active_count_cons v versions :
  active_count (v :: versions) =
  (if is_active v then 1 else 0) + active_count versions.
Proof.
  unfold active_count. rewrite filter_cons.
  destruct (is_active v); by case_decide.
Qed.

Lemma active_count_app l1 l2 :
  active_count (l1 ++ l2) = active_count l1 + active_count l2.
Proof. unfold active_count. by rewrite filter_app, length_app. Qed.

Lemma active_count_deactivate versions :
  active_count (set_is_active false <$> versions) = 0.
Proof.
  induction versions as [|v l IH]; [done|].
  rewrite fmap_cons, active_count_cons. by rewrite IH.
Qed.

Lemma active_count_activate i versions :
  i < List.length versions → active_count (activate_versions i versions) = 1.
Proof.
  unfold activate_versions. revert i.
  induction versions as [|v l IH]; intros i Hi; cbn in Hi; [lia|].
  rewrite fmap_cons. destruct i as [|i]; cbn [alter list_alter].
  - rewrite active_count_cons. cbn [is_active set_is_active].
    by rewrite active_count_deactivate.
  - rewrite active_count_cons. cbn [is_active set_is_active]. apply IH. lia.
Qed.

Lemma versions_deactivate (versions : list Release) :
  version <$> (set_is_active false <$> versions) = version <$> versions.
Proof. induction versions as [|v l IH]; [done|]. cbn. by f_equal. Qed.

Lemma versions_activate i (versions : list Release) :
  version <$> activate_versions i versions = version <$> versions.
Proof.
  unfold activate_versions. rewrite <-(versions_deactivate versions).
  generalize (set_is_active false <$> versions) as l. intros l. revert i.
  induction l as [|v l IH]; intros [|i]; cbn; try done. by f_equal.
Qed.

Lemma active_count_filter (P : Release → Prop) `{!∀ v, Decision (P v)} versions :
  (∀ v, v ∈ versions → ¬ P v → is_active v = false) →
  active_count (filter P versions) = active_count versions.
Proof.
  induction versions as [|v l IH]; intros Hrm; [done|].
  rewrite filter_cons. destruct (decide (P v)) as [HP|HP].
  - rewrite !active_count_cons, IH; [done|]. intros; apply Hrm; [by right|done].
  - rewrite active_count_cons, IH.
    + rewrite (Hrm v); [done|by left|done].
    + intros; apply Hrm; [by right|done].
Qed.

Lemma unique_versions_eq versions a b :
  unique_versions versions → a ∈ versions → b ∈ versions →
  version a = version b → a = b.
Proof.
  unfold unique_versions.
  induction versions as [|v l IH]; intros Hnd Ha Hb Heq; [by inversion Ha|].
  rewrite fmap_cons in Hnd. apply NoDup_cons in Hnd as [Hv Hnd].
  apply elem_of_cons in Ha as [->|Ha]; apply elem_of_cons in Hb as [->|Hb].
  - done.
  - exfalso. apply Hv. rewrite Heq. by apply list_elem_of_fmap_2.
  - exfalso. apply Hv. rewrite <-Heq. by apply list_elem_of_fmap_2.
  - by apply IH.
Qed.

Lemma unique_versions_filter (P : Release → Prop) `{!∀ v, Decision (P v)} versions :
  unique_versions versions → unique_versions (filter P versions).
Proof.
  unfold unique_versions.
  induction versions as [|v l IH]; intros Hnd; [done|].
  rewrite fmap_cons in Hnd. apply NoDup_cons in Hnd as [Hv Hnd].
  rewrite filter_cons. destruct (decide (P v)); [|by apply IH].
  rewrite fmap_cons. apply NoDup_cons. split; [|by apply IH].
  intros (x & Hx & Hin%list_elem_of_filter)%list_elem_of_fmap.
  apply Hv. rewrite Hx. apply list_elem_of_fmap_2. tauto.
Qed.

Lemma well_formed_invariant versions :
  well_formed versions → catalog_invariant versions.
Proof.
  intros [_ [->|Hone]]; unfold catalog_invariant.
  - cbn. split; [lia|]. split; [discriminate|done].
  - rewrite Hone. split; [lia|]. split; [|done].
    intros _ ->. discriminate Hone.
Qed.

Lemma well_formed_upload info versions :
  is_active info = true →
  well_formed versions → well_formed (upload_versions info versions).
Proof.
  intros Hact [Hnd _]. unfold upload_versions. split.
  - unfold unique_versions. rewrite fmap_app, versions_deactivate.
    apply NoDup_app. split; [|split].
    + by apply (unique_versions_filter (λ v, version v ≠ version info)).
    + intros x (v & -> & Hv%list_elem_of_filter)%list_elem_of_fmap Hx.
      apply list_elem_of_singleton in Hx. cbn in Hx. tauto.
    + apply NoDup_singleton.
  - right. rewrite active_count_app, active_count_deactivate.
    rewrite active_count_cons, Hact. done.
Qed.

Lemma well_formed_activate ver i t versions :
  find_target ver versions = Some (i, t) →
  well_formed versions → well_formed (activate_versions i versions).
Proof.
  intros [Hi _]%find_target_Some [Hnd _]. split.
  - unfold unique_versions. by rewrite versions_activate.
  - right. apply active_count_activate. by eapply lookup_lt_Some.
Qed.

Lemma well_formed_delete ver i t versions :
  find_target ver versions = Some (i, t) →
  is_active t = false →
  well_formed versions → well_formed (delete_versions ver versions).
Proof.
  intros [Hi Hv]%find_target_Some Hoff [Hnd Hone]. unfold delete_versions.
  assert (t ∈ versions) as Ht by (by eapply list_elem_of_lookup_2).
  split; [by apply unique_versions_filter|].
  right. destruct Hone as [->|Hone]; [by inversion Ht|].
  rewrite active_count_filter; [done|].
  intros v Hin Hdel. apply dec_stable in Hdel.
  rewrite (unique_versions_eq versions v t); [done..|congruence].
Qed.

Lemma filter_none {A} (P : A → Prop) `{!∀ x, Decision (P x)} (l : list A) :
  (∀ x, x ∈ l → ¬ P x) → filter P l = [].
Proof.
  induction l as [|x l IH]; intros Hno; [done|].
  rewrite filter_cons_False by (apply Hno; by left).
  apply IH. intros; apply Hno. by right.
Qed.

Lemma find_target_index ver (versions : list Release) :
  fst <$> find_target ver versions
  = fst <$> list_find (λ x, x = ver) (version <$> versions).
Proof.
  unfold find_target. rewrite list_find_fmap.
  by destruct (list_find _ versions) as [[]|].
Qed.

Lemma find_target_activate ver i t versions :
  find_target ver versions = Some (i, t) →
  ∃ t', find_target ver (activate_versions i versions) = Some (i, t').
Proof.
  intros Hf.
  pose proof (find_target_index ver (activate_versions i versions)) as Hidx.
  rewrite versions_activate, <-find_target_index, Hf in Hidx.
  destruct (find_target ver (activate_versions i versions)) as [[j t']|];
    [|done].
  injection Hidx as ->. by exists t'.
Qed.

Lemma activate_versions_idemp i versions :
  activate_versions i (activate_versions i versions)
  = activate_versions i versions.
Proof.
  unfold activate_versions. revert i.
  induction versions as [|v l IH]; intros [|i]; cbn; try done.
  - f_equal. rewrite <-list_fmap_compose. apply list_fmap_ext. by intros ? [].
  - f_equal. apply IH.
Qed.

Lemma write_file_twice p text text' w :
  write_file p text (write_file p text' w) = write_file p text w.
Proof. unfold write_file, set_files. cbn. by rewrite insert_insert_eq. Qed.

(** ** Sorting *)

Lemma ltb_true_le a b : String.ltb a b = true → (a ≤ b)%string ∧ a ≠ b.
Proof.
  unfold String.ltb, String.le, String.leb.
  destruct (String.compare a b) eqn:E; try done. intros _. split; [done|].
  intros ->. pose proof (String.compare_antisym b b) as Ha.
  rewrite E in Ha. discriminate Ha.
Qed.

Lemma ltb_false_le a b : String.ltb a b = false → (b ≤ a)%string.
Proof.
  unfold String.ltb, String.le, String.leb. rewrite (String.compare_antisym a b).
  by destruct (String.compare b a).
Qed.

Section Sorting.
Context {A : Type} (key : A → string).

Lemma insert_reverse_perm x l : insert_reverse key x l ≡ₚ x :: l.
Proof.
  induction l as [|y l IH]; cbn; [done|].
  destruct (String.ltb (key x) (key y)); [|done].
  rewrite IH. apply perm_swap.
Qed.

Lemma sort_reverse_perm l : sort_reverse key l ≡ₚ l.
Proof.
  induction l as [|x l IH]; cbn; [done|].
  fold (sort_reverse key l). by rewrite insert_reverse_perm, IH.
Qed.

Lemma insert_reverse_sorted x l :
  StronglySorted (descending key) l → StronglySorted (descending key) (insert_reverse key x l).
Proof.
  induction l as [|y l IH]; intros Hs; cbn.
  - repeat constructor.
  - apply StronglySorted_inv in Hs as [Hl Hy].
    destruct (String.ltb (key x) (key y)) eqn:E.
    + constructor; [by apply IH|].
      rewrite insert_reverse_perm. constructor; [|done].
      by apply ltb_true_le in E as [? _].
    + apply ltb_false_le in E.
      constructor; [by constructor|]. constructor; [done|].
      eapply Forall_impl; [exact Hy|]. intros z Hz. unfold descending in *.
      by etrans.
Qed.

Lemma sort_reverse_sorted l : StronglySorted (descending key) (sort_reverse key l).
Proof.
  induction l as [|x l IH]; cbn; [constructor|].
  by apply insert_reverse_sorted.
Qed.

(** Stability: among the entries of one key, insertion keeps the new entry in
    front, so the sort keeps them in their original order. *)
Lemma insert_reverse_stable d x l :
  filter (λ v, key v = d) (insert_reverse key x l)
  = filter (λ v, key v = d) (x :: l).
Proof.
  induction l as [|y l IH]; cbn; [done|].
  destruct (String.ltb (key x) (key y)) eqn:E; [|done].
  apply ltb_true_le in E as [_ Hne].
  rewrite filter_cons, IH, !filter_cons.
  destruct (decide (key y = d)), (decide (key x = d)); done || congruence.
Qed.

Lemma sort_reverse_stable d l :
  filter (λ v, key v = d) (sort_reverse key l) = filter (λ v, key v = d) l.
Proof.
  induction l as [|x l IH]; cbn; [done|].
  fold (sort_reverse key l). rewrite insert_reverse_stable, !filter_cons.
  by rewrite IH.
Qed.

(** A sort is determined by being stable: two descending arrangements of the
    same entries that keep the entries of each key in the same order are
    equal.  So [sort_reverse] is what any stable sort returns. *)
Lemma stable_sort_unique l1 l2 :
  l1 ≡ₚ l2 →
  StronglySorted (descending key) l1 →
  StronglySorted (descending key) l2 →
  (∀ d, filter (λ v, key v = d) l1 = filter (λ v, key v = d) l2) →
  l1 = l2.
Proof.
  revert l2. induction l1 as [|x l1 IH]; intros l2 Hp Hs1 Hs2 Hst.
  - by apply Permutation_nil_l in Hp.
  - destruct l2 as [|y l2]; [by apply Permutation_nil_r in Hp|].
    apply StronglySorted_inv in Hs1 as [Hs1 Hx].
    apply StronglySorted_inv in Hs2 as [Hs2 Hy].
    assert (key x = key y) as Hk.
    { apply (anti_symm String.le).
      - assert (x ∈ y :: l2) as Hin by (rewrite <-Hp; left).
        apply elem_of_cons in Hin as [->|Hin]; [done|].
        rewrite Forall_forall in Hy. by apply Hy.
      - assert (y ∈ x :: l1) as Hin by (rewrite Hp; left).
        apply elem_of_cons in Hin as [->|Hin]; [done|].
        rewrite Forall_forall in Hx. by apply Hx. }
    pose proof (Hst (key x)) as Hd.
    rewrite !filter_cons, decide_True in Hd by done.
    rewrite decide_True in Hd by done.
    injection Hd as <- _. f_equal.
    apply IH; [by eapply Permutation_cons_inv|done..|].
    intros d. specialize (Hst d). rewrite !filter_cons in Hst.
    destruct (decide (key x = d)); [by injection Hst|done].
Qed.

Lemma sort_reverse_unique l sorted :
  sorted ≡ₚ l →
  StronglySorted (descending key) sorted →
  (∀ d, filter (λ v, key v = d) sorted = filter (λ v, key v = d) l) →
  sorted = sort_reverse key l.
Proof.
  intros Hp Hs Hst.
  apply stable_sort_unique; [|done|apply sort_reverse_sorted|].
  - by rewrite sort_reverse_perm.
  - intros d. by rewrite sort_reverse_stable.
Qed.

End Sorting.

(** ** The JSON texts *)

Lemma append_cons x (a b : string) : String x a +:+ b = String x (a +:+ b).
Proof. reflexivity. Qed.

Lemma append_assoc (a b c : string) : (a +:+ b) +:+ c = a +:+ (b +:+ c).
Proof. induction a as [|x a IH]; [done|]. by rewrite !append_cons, IH. Qed.

Lemma length_append (a b : string) :
  String.length (a +:+ b) = String.length a + String.length b.
Proof.
  induction a as [|x a IH]; [done|]. rewrite append_cons. cbn. by rewrite IH.
Qed.

Lemma expect_app p s : expect p (p +:+ s) = Some s.
Proof.
  induction p as [|a p IH]; [done|]. rewrite append_cons. cbn.
  by rewrite Ascii.eqb_refl.
Qed.

Lemma expect_append p q s : expect (p +:+ q) s = expect p s ≫= expect q.
Proof.
  revert s. induction p as [|a p IH]; intros s; [done|].
  rewrite append_cons. cbn.
  destruct s as [|b s]; [done|]. destruct (Ascii.eqb a b); [apply IH|done].
Qed.

Lemma load_chars_escape_char c fuel tail :
  load_chars (S fuel) (escape_char c +:+ tail)
  = '(t, rest) ← load_chars fuel tail; Some (String c t, rest).
Proof.
  destruct c as [[] [] [] [] [] [] [] []]; reflexivity.
Qed.

Lemma load_chars_escape s fuel rest :
  String.length s < fuel →
  load_chars fuel (escape s +:+ String quote rest) = Some (s, rest).
Proof.
  revert fuel. induction s as [|c s IH]; intros fuel Hf.
  - destruct fuel; [lia|]. reflexivity.
  - destruct fuel; [lia|]. cbn [escape]. rewrite append_assoc.
    rewrite load_chars_escape_char, IH by (cbn in Hf; lia). done.
Qed.

Lemma length_escape s : String.length s ≤ String.length (escape s).
Proof.
  induction s as [|c s IH]; cbn; [done|]. rewrite length_append.
  assert (1 ≤ String.length (escape_char c)); [|lia].
  destruct c as [[] [] [] [] [] [] [] []]; vm_compute; lia.
Qed.

Lemma load_string_dump s rest :
  load_string (dump_string s +:+ rest) = Some (s, rest).
Proof.
  unfold load_string, dump_string. rewrite append_cons. cbn [expect].
  rewrite Ascii.eqb_refl. cbn [mbind option_bind].
  rewrite append_assoc. apply load_chars_escape.
  rewrite length_append, append_cons. pose proof (length_escape s).
  cbn [String.length]. lia.
Qed.

Lemma load_uint_dump d rest :
  load_uint rest = (Nil, rest) →
  load_uint (dump_uint d +:+ rest) = (d, rest).
Proof.
  intros Hrest. induction d as [|d IH|d IH|d IH|d IH|d IH|d IH|d IH|d IH|d IH|d IH];
    [exact Hrest|..];
    cbn [dump_uint]; rewrite append_cons; cbn [load_uint]; by rewrite IH.
Qed.

Lemma to_uint_not_nil n : Nat.to_uint n ≠ Nil.
Proof.
  pose proof (Unsigned.to_of (Nat.to_uint n)) as Hn.
  rewrite Unsigned.of_to in Hn. intros E. rewrite E in Hn. discriminate Hn.
Qed.

Lemma load_nat_dump n rest :
  load_uint rest = (Nil, rest) →
  load_nat (dump_nat n +:+ rest) = Some (n, rest).
Proof.
  intros Hrest. unfold load_nat, dump_nat. rewrite load_uint_dump by done.
  pose proof (to_uint_not_nil n).
  destruct (Nat.to_uint n) eqn:E; try done; by rewrite <-E, Unsigned.of_to.
Qed.

Lemma load_bool_dump b rest :
  load_bool (dump_bool b +:+ rest) = Some (b, rest).
Proof. destruct b; unfold load_bool; cbn; by rewrite ?expect_app. Qed.

Lemma load_release_dump r rest :
  load_release (dump_release r +:+ rest) = Some (r, rest).
Proof.
  unfold load_release, dump_release. rewrite !append_assoc.
  repeat first
    [ rewrite expect_append | rewrite expect_app | rewrite load_string_dump
    | rewrite load_bool_dump | rewrite load_nat_dump by reflexivity
    | progress cbn [mbind option_bind] ].
  by destruct r.
Qed.

Lemma load_releases_dump r rs fuel :
  List.length rs < fuel →
  load_releases fuel (dump_releases r rs) = Some (r :: rs).
Proof.
  revert r fuel. induction rs as [|r' rs IH]; intros r fuel Hf;
    (destruct fuel; [cbn in Hf; lia|]); cbn [load_releases dump_releases];
    rewrite load_release_dump; cbn [mbind option_bind].
  - reflexivity.
  - rewrite expect_append, expect_app. cbn [mbind option_bind].
    rewrite expect_app, IH by (cbn in Hf; lia). done.
Qed.

Lemma length_dump_releases r rs :
  List.length rs < String.length (dump_releases r rs).
Proof.
  assert (∀ r, 0 < String.length (dump_release r)) as Hpos.
  { intros r'. unfold dump_release. rewrite length_append.
    cbn [String.length]. lia. }
  revert r. induction rs as [|r' rs IH]; intros r; cbn [dump_releases].
  - rewrite length_append. specialize (Hpos r). cbn [List.length]. lia.
  - rewrite !length_append. specialize (IH r').
    cbn [List.length String.length]. lia.
Qed.

Lemma text_load_dump versions : text_load (text_dump versions) = Some versions.
Proof.
  destruct versions as [|r rs]; [done|].
  unfold text_load, text_dump. rewrite bool_decide_eq_false_2 by done.
  rewrite expect_append, expect_app. cbn [mbind option_bind].
  rewrite expect_app. apply load_releases_dump.
  rewrite !length_append. pose proof (length_dump_releases r rs). lia.
Qed.

Lemma text_load_empty : text_load "" = None.
Proof. reflexivity. Qed.

Global Instance text_json : JsonLib :=
  {| json_dump := text_dump;
     json_load := text_load;
     json_load_dump := text_load_dump;
     json_load_empty := text_load_empty |}.

Section ServerProps.
Context `{JsonLib}.

Lemma run_write (p text : string) w :
  run (_ ← call_exn (OpenW p); call (WriteText p text)) w =
  if decide (p ∈ fs_unwritable w) then (inl (OSError p), w)
  else (inr (), write_file p text w).
Proof.
  cbn. destruct (decide (p ∈ fs_unwritable w)); [done|].
  cbn. unfold write_file, set_files. cbn.
  by rewrite lookup_insert_eq, insert_insert_eq.
Qed.

Lemma run_load_catalog c w : run (load_catalog c) w = (inr (catalog c w), w).
Proof.
  unfold load_catalog, catalog. cbn.
  destruct (fs_files w !! os_path_join DATA_FOLDER (catalog_file c)) as [text|] eqn:E.
  - rewrite bool_decide_eq_true_2 by eauto. cbn. rewrite E. cbn.
    by destruct (json_load text).
  - rewrite bool_decide_eq_false_2 by (intros [? ?]; congruence). done.
Qed.

Lemma run_save_catalog c versions w :
  run (save_catalog c versions) w =
  if decide (catalog_path c ∈ fs_unwritable w)
  then (inl (OSError (catalog_path c)), w)
  else (inr (), write_file (catalog_path c) (json_dump versions) w).
Proof. apply run_write. Qed.

Lemma catalog_write_same c versions w :
  catalog c (write_file (catalog_path c) (json_dump versions) w) = versions.
Proof.
  unfold catalog, write_file, catalog_path. cbn.
  by rewrite lookup_insert_eq, json_load_dump.
Qed.

Lemma catalog_write_other c p text w :
  p ≠ catalog_path c → catalog c (write_file p text w) = catalog c w.
Proof.
  intros Hne. unfold catalog, write_file. cbn.
  by rewrite lookup_insert_ne.
Qed.

(** C5 (round trip): after [save_versions] / [save_launcher_versions] has
    written the sequence [X], the matching load returns [X] itself: the same
    entries with the same field values in the same order.  The write needs a
    writable catalog file. *)
Theorem save_load_roundtrip (c : Channel) (X : list Release) (w : World) :
  catalog_path c ∉ fs_unwritable w →
  ∃ w', run (save_catalog c X) w = (inr (), w') ∧
        run (load_catalog c) w' = (inr X, w').
Proof.
  intros Hw. eexists. split.
  - rewrite run_save_catalog. by rewrite decide_False.
  - by rewrite run_load_catalog, catalog_write_same.
Qed.

Lemma artifact_path_not_catalog name c : artifact_path name ≠ catalog_path c.
Proof.
  unfold artifact_path, os_path_join, startswith_slash.
  destruct name as [|a name]; [by destruct c|].
  destruct (Ascii.eqb a "/") eqn:E; [|by destruct c].
  apply Ascii.eqb_eq in E as ->. by destruct c.
Qed.

Lemma catalog_path_inj c c' : catalog_path c = catalog_path c' → c = c'.
Proof. by destruct c, c'. Qed.

Lemma run_file_save file p w :
  run (file_save file p) w =
  if decide (p ∈ fs_unwritable w) then (inl (OSError p), w)
  else (inr (), write_file p (stream file) w).
Proof. apply run_write. Qed.

Lemma catalog_write_artifact c name text w :
  catalog c (write_file (artifact_path name) text w) = catalog c w.
Proof. apply catalog_write_other, artifact_path_not_catalog. Qed.

Lemma getsize_written p text w :
  fs_step (OsPathGetsize p) (write_file p text w)
  = (inr (String.length text), write_file p text w).
Proof. cbn. by rewrite lookup_insert_eq. Qed.

Lemma run_getsize_written p text w :
  run (call_exn (OsPathGetsize p)) (write_file p text w)
  = (inr (String.length text), write_file p text w).
Proof. cbn [call_exn run]. by rewrite getsize_written. Qed.

(** The three outcomes of an upload whose input passes validation. *)
Lemma run_upload_valid now request file w :
  files request !! "game_file" = Some file →
  upload_version request ≠ "" →
  filename file ≠ "" →
  allowed_file (filename file) = true →
  let c := upload_target request in
  let info := upload_info now request file in
  let w1 := write_file (artifact_path (download_url info)) (stream file) w in
  run (upload_game_version now request) w =
  if decide (artifact_path (download_url info) ∈ fs_unwritable w) then
    (inr (mkResponse 500 (JsonError ("Error uploading version: "
            +:+ str_exn (OSError (artifact_path (download_url info)))))), w)
  else if decide (catalog_path c ∈ fs_unwritable w) then
    (inr (mkResponse 500 (JsonError ("Error uploading version: "
            +:+ str_exn (OSError (catalog_path c))))), w1)
  else
    (inr (mkResponse 200 (JsonUploaded (uploaded_message c) (version info)
                            (file_size info))),
     write_file (catalog_path c)
       (json_dump (upload_versions info (catalog c w))) w1).
Proof.
  intros Hfile Hver Hname Hext c info w1.
  unfold upload_game_version. rewrite run_try_except, Hfile.
  fold (upload_version request).
  rewrite (bool_decide_eq_false_2 _ Hver), (bool_decide_eq_false_2 _ Hname), Hext.
  cbn [negb]. fold (upload_target request). fold c.
  rewrite run_bind, run_file_save.
  fold (artifact_path (artifact_name c (upload_version request))).
  change (artifact_name c (upload_version request)) with (download_url info).
  destruct (decide (artifact_path (download_url info) ∈ fs_unwritable w)); [done|].
  fold w1. rewrite run_bind.
  cbn [call_exn run]. unfold w1 at 1. rewrite getsize_written. fold w1.
  cbn [run]. rewrite run_bind, run_load_catalog.
  rewrite run_bind, run_save_catalog.
  replace (catalog c w1) with (catalog c w)
    by (symmetry; apply catalog_write_artifact).
  change (fs_unwritable w1) with (fs_unwritable w).
  destruct (decide (catalog_path c ∈ fs_unwritable w)); done.
Qed.

Lemma run_activate c ver w :
  run (activate_catalog c ver) w =
  match find_target ver (catalog c w) with
  | None =>
      (inr (mkResponse 404 (JsonError (channel_label c +:+ ver +:+ " not found"))), w)
  | Some (i, _) =>
      if decide (catalog_path c ∈ fs_unwritable w) then
        (inr (mkResponse 500 (JsonError ("Error activating " +:+ channel_noun c
                +:+ ": " +:+ str_exn (OSError (catalog_path c))))), w)
      else
        (inr (mkResponse 200
                (JsonMessage (channel_label c +:+ ver +:+ " activated successfully"))),
         write_file (catalog_path c)
           (json_dump (activate_versions i (catalog c w))) w)
  end.
Proof.
  unfold activate_catalog.
  rewrite run_try_except, run_bind, run_load_catalog.
  destruct (find_target ver (catalog c w)) as [[i t]|]; [|done].
  rewrite run_bind, run_save_catalog.
  destruct (decide (catalog_path c ∈ fs_unwritable w)); done.
Qed.

Lemma run_delete c ver w :
  run (delete_catalog c ver) w =
  match find_target ver (catalog c w) with
  | None =>
      (inr (mkResponse 404 (JsonError (channel_label c +:+ ver +:+ " not found"))), w)
  | Some (i, t) =>
      if is_active t then
        (inr (mkResponse 400 (JsonError ("Cannot delete active " +:+ channel_noun c
                +:+ ". Activate another version first."))), w)
      else
        let fp := artifact_path (download_url t) in
        let failed p w' :=
          (inr (mkResponse 500 (JsonError ("Error deleting " +:+ channel_noun c
                  +:+ ": " +:+ str_exn (OSError p)))), w') in
        let save w' :=
          if decide (catalog_path c ∈ fs_unwritable w) then failed (catalog_path c) w'
          else
            (inr (mkResponse 200
                    (JsonMessage (channel_label c +:+ ver +:+ " deleted successfully"))),
             write_file (catalog_path c)
               (json_dump (delete_versions ver (catalog c w))) w') in
        match fs_files w !! fp with
        | None => save w
        | Some _ =>
            if decide (fp ∈ fs_unwritable w) then failed fp w
            else save (remove_file fp w)
        end
  end.
Proof.
  unfold delete_catalog.
  rewrite run_try_except, run_bind, run_load_catalog.
  destruct (find_target ver (catalog c w)) as [[i t]|]; [|done].
  destruct (is_active t); [done|].
  rewrite run_bind. fold (artifact_path (download_url t)).
  cbn [call run fs_step].
  destruct (fs_files w !! artifact_path (download_url t)) as [text|] eqn:E.
  - rewrite bool_decide_eq_true_2 by eauto.
    rewrite run_bind. cbn [call_exn run fs_step]. rewrite E.
    destruct (decide (artifact_path (download_url t) ∈ fs_unwritable w)); [done|].
    cbn [run]. rewrite run_bind, run_save_catalog.
    change (fs_unwritable (set_files _ w)) with (fs_unwritable w).
    destruct (decide (catalog_path c ∈ fs_unwritable w)); done.
  - rewrite bool_decide_eq_false_2 by (intros [? ?]; congruence).
    rewrite run_bind. cbn [run]. rewrite run_bind, run_save_catalog.
    destruct (decide (catalog_path c ∈ fs_unwritable w)); done.
Qed.

Lemma run_upload_rejected now request w :
  rejected request →
  ∃ msg, run (upload_game_version now request) w
         = (inr (mkResponse 400 (JsonError msg)), w).
Proof.
  unfold rejected, upload_game_version. rewrite run_try_except.
  destruct (files request !! "game_file") as [file|]; [|by eexists].
  fold (upload_version request).
  destruct (decide (upload_version request = "")) as [Hv|Hv].
  { rewrite (bool_decide_eq_true_2 _ Hv). by eexists. }
  rewrite (bool_decide_eq_false_2 _ Hv).
  destruct (decide (filename file = "")) as [Hn|Hn].
  { rewrite (bool_decide_eq_true_2 _ Hn). by eexists. }
  rewrite (bool_decide_eq_false_2 _ Hn).
  intros [?|[?|Hext]]; [done..|]. rewrite Hext. by eexists.
Qed.

Lemma not_rejected request :
  ¬ rejected request →
  ∃ file, files request !! "game_file" = Some file ∧
          upload_version request ≠ "" ∧ filename file ≠ "" ∧
          allowed_file (filename file) = true.
Proof.
  unfold rejected. destruct (files request !! "game_file") as [file|]; [|tauto].
  intros Hno. exists file. split; [done|].
  destruct (allowed_file (filename file)); naive_solver.
Qed.

(** Every operation maps a well-formed catalog to a well-formed catalog, on
    each channel. *)
Lemma perform_well_formed op c w :
  well_formed (catalog c w) → well_formed (catalog c (perform op w)).
Proof.
  intros Hwf. unfold perform. destruct op as [now request|c' ver|c' ver]; cbn [handler].
  - destruct (decide (rejected request)) as [Hr|Hr].
    { destruct (run_upload_rejected now request w Hr) as [msg ->]. done. }
    destruct (not_rejected _ Hr) as (file & Hf & Hv & Hn & Hext).
    rewrite (run_upload_valid now request file w Hf Hv Hn Hext).
    repeat case_decide; cbn [snd]; rewrite ?catalog_write_artifact; try done.
    destruct (decide (c = upload_target request)) as [->|Hc].
    + rewrite catalog_write_same. by apply well_formed_upload.
    + rewrite catalog_write_other, catalog_write_artifact; [done|].
      intros Heq%catalog_path_inj. done.
  - rewrite run_activate.
    destruct (find_target ver (catalog c' w)) as [[i t]|] eqn:E; [|done].
    case_decide; [done|]. cbn [snd].
    destruct (decide (c = c')) as [->|Hc].
    + rewrite catalog_write_same. by eapply well_formed_activate.
    + rewrite catalog_write_other; [done|]. by intros ?%catalog_path_inj.
  - rewrite run_delete.
    destruct (find_target ver (catalog c' w)) as [[i t]|] eqn:E; [|done].
    destruct (is_active t) eqn:Ha; [done|]. cbn zeta.
    assert (∀ w', catalog c w' = catalog c w →
              catalog_path c' ∉ fs_unwritable w →
              well_formed (catalog c (write_file (catalog_path c')
                (json_dump (delete_versions ver (catalog c' w))) w'))) as Hsave.
    { intros w' Hw' _. destruct (decide (c = c')) as [->|Hc].
      - rewrite catalog_write_same. by eapply well_formed_delete.
      - rewrite catalog_write_other, Hw'; [done|]. by intros ?%catalog_path_inj. }
    assert (catalog c (remove_file (artifact_path (download_url t)) w)
            = catalog c w) as Hrm.
    { unfold catalog, remove_file. cbn.
      rewrite lookup_delete_ne; [done|]. apply artifact_path_not_catalog. }
    destruct (fs_files w !! artifact_path (download_url t));
      repeat case_decide; cbn [snd]; rewrite ?Hrm; auto.
Qed.

Lemma states_well_formed ops c w :
  well_formed (catalog c w) →
  Forall (λ w', well_formed (catalog c w')) (states ops w).
Proof.
  revert w. induction ops as [|op ops IH]; intros w Hwf; cbn; [done|].
  constructor; [|apply IH]; by apply perform_well_formed.
Qed.

(** C1 (invariant): starting from an empty catalog of a channel, after each
    operation of any sequence of uploads, activations and deletions the
    catalog of that channel holds at most one active release, and exactly one
    iff it is not empty. *)
Theorem mutations_keep_one_active (c : Channel) (ops : list Operation) (w : World) :
  catalog c w = [] →
  Forall (λ w', catalog_invariant (catalog c w')) (states ops w).
Proof.
  intros Hempty. eapply Forall_impl.
  - apply states_well_formed. rewrite Hempty. split; [constructor|by left].
  - intros w' Hwf. by apply well_formed_invariant.
Qed.

(** C4 (activation): activating a version that is in the catalog succeeds
    (the catalog file being writable), and a second activation of the same
    version succeeds again and leaves the file system, hence the catalog,
    exactly as the first one left it; for a version that is not in the catalog
    the answer is 404 and nothing changes. *)
Theorem activate_idempotent (c : Channel) (ver : string) (w : World) :
  let ok := mkResponse 200
              (JsonMessage (channel_label c +:+ ver +:+ " activated successfully")) in
  (ver ∈ version <$> catalog c w →
   catalog_path c ∉ fs_unwritable w →
   ∃ w1, run (activate_catalog c ver) w = (inr ok, w1) ∧
         run (activate_catalog c ver) w1 = (inr ok, w1))
  ∧
  (ver ∉ version <$> catalog c w →
   run (activate_catalog c ver) w
   = (inr (mkResponse 404 (JsonError (channel_label c +:+ ver +:+ " not found"))), w)).
Proof.
  intros ok. split.
  - intros [[i t] Hf]%find_target_is_Some Hw.
    eexists. split.
    + rewrite run_activate, Hf. by rewrite decide_False.
    + rewrite run_activate, catalog_write_same.
      destruct (find_target_activate _ _ _ _ Hf) as [t' ->].
      rewrite decide_False by done.
      by rewrite activate_versions_idemp, write_file_twice.
  - intros Hf%find_target_None. by rewrite run_activate, Hf.
Qed.

Lemma catalog_remove_artifact c name w :
  catalog c (remove_file (artifact_path name) w) = catalog c w.
Proof.
  unfold catalog, remove_file. cbn.
  rewrite lookup_delete_ne; [done|]. apply artifact_path_not_catalog.
Qed.




(** C8 (validation), as the code has it: an upload is turned down with status
    400, and the file system is left as it was, when the file part is
    missing, when the version is empty once stripped, when the file name is
    empty, or when the file name is not on the allow-list. *)
Theorem upload_rejects_invalid (now : string) (request : Request) (w : World) :
  rejected request →
  ∃ msg, run (upload_game_version now request) w
         = (inr (mkResponse 400 (JsonError msg)), w).
Proof. apply run_upload_rejected. Qed.

(** C6 (history): the history query answers with the releases of the
    catalog (a permutation of it), ordered by [release_date] from the greatest
    to the least, and the entries that share a [release_date] appear in the
    order they have in the catalog. *)
Theorem history_sorted_stable (c : Channel) (w : World) :
  ∃ versions,
    run (get_history c) w = (inr (mkResponse 200 (JsonVersions versions)), w)
    ∧ versions ≡ₚ catalog c w
    ∧ StronglySorted (descending release_date) versions
    ∧ ∀ d, filter (λ v, release_date v = d) versions
           = filter (λ v, release_date v = d) (catalog c w).
Proof.
  exists (sort_reverse release_date (catalog c w)). split; [|split; [|split]].
  - unfold get_history. by rewrite run_try_except, run_bind, run_load_catalog.
  - apply sort_reverse_perm.
  - apply sort_reverse_sorted.
  - intros d. apply sort_reverse_stable.
Qed.

(** *** Interleavings of the handlers *)

Lemma catalog_truncated c w : catalog c (write_file (catalog_path c) "" w) = [].
Proof.
  unfold catalog, write_file, catalog_path. cbn.
  by rewrite lookup_insert_eq, json_load_empty.
Qed.

(** The first step of a replace truncates the catalog file, the second one
    writes the document. *)
Lemma schedule_open {B} c X (f : unit → Prog B) h i pool w rest :
  catalog_path c ∉ fs_unwritable w →
  pool !! i = Some (try_except (save_catalog c X ≫= f) h) →
  run_schedule (i :: rest) pool w
  = run_schedule rest
      (<[i := try_except (call (WriteText (catalog_path c) (json_dump X)) ≫= f) h]> pool)
      (write_file (catalog_path c) "" w).
Proof.
  intros Hw Hi. cbn [run_schedule]. rewrite Hi.
  unfold save_catalog. fold (catalog_path c). cbn.
  by rewrite decide_False.
Qed.

Lemma schedule_write {B} c X (f : unit → Prog B) h i pool w rest :
  pool !! i = Some (try_except (call (WriteText (catalog_path c) (json_dump X)) ≫= f) h) →
  run_schedule (i :: rest) pool (write_file (catalog_path c) "" w)
  = run_schedule rest (<[i := try_except (f ()) h]> pool)
      (write_file (catalog_path c) (json_dump X) w).
Proof.
  intros Hi. cbn [run_schedule]. rewrite Hi. cbn.
  unfold write_file, set_files. cbn.
  by rewrite lookup_insert_eq, insert_insert_eq.
Qed.

(** An activation up to the point where it has loaded the catalog. *)
Lemma schedule_activate_load c ver j t i pool w rest :
  find_target ver (catalog c w) = Some (j, t) →
  pool !! i = Some (activate_catalog c ver) →
  run_schedule (replicate (nsteps (load_catalog c) w) i ++ rest) pool w
  = run_schedule rest
      (<[i := try_except
          (save_catalog c (activate_versions j (catalog c w)) ≫= λ _,
           mret (mkResponse 200
                   (JsonMessage (channel_label c +:+ ver +:+ " activated successfully"))))
          (λ e, error_response 500
                  ("Error activating " +:+ channel_noun c +:+ ": " +:+ str_exn e))]> pool)
      w.
Proof.
  intros Hf Hi. unfold activate_catalog in Hi.
  rewrite (schedule_handler_phase (load_catalog c) _ _ i pool w rest Hi).
  rewrite run_load_catalog. cbn [fst snd finished].
  cbn [mbind Prog_bind prog_bind]. by rewrite Hf.
Qed.

(** An upload up to the point where it has stored the artifact and loaded the
    catalog. *)
Lemma schedule_upload_load now request file i pool w rest :
  files request !! "game_file" = Some file →
  upload_version request ≠ "" →
  filename file ≠ "" →
  allowed_file (filename file) = true →
  let c := upload_target request in
  let info := upload_info now request file in
  artifact_path (download_url info) ∉ fs_unwritable w →
  pool !! i = Some (upload_game_version now request) →
  ∃ n,
    run_schedule (replicate n i ++ rest) pool w
    = run_schedule rest
        (<[i := try_except
            (save_catalog c (upload_versions info (catalog c w)) ≫= λ _,
             mret (mkResponse 200 (JsonUploaded (uploaded_message c)
                     (upload_version request) (String.length (stream file)))))
            (λ e, error_response 500 ("Error uploading version: " +:+ str_exn e))]> pool)
        (write_file (artifact_path (download_url info)) (stream file) w).
Proof.
  intros Hf Hv Hn Hext c info Hart Hi.
  unfold upload_game_version in Hi. rewrite Hf in Hi.
  fold (upload_version request) in Hi.
  rewrite (bool_decide_eq_false_2 _ Hv), (bool_decide_eq_false_2 _ Hn), Hext in Hi.
  cbn [negb] in Hi. fold (upload_target request) in Hi. fold c in Hi.
  fold (artifact_path (artifact_name c (upload_version request))) in Hi.
  change (artifact_name c (upload_version request)) with (download_url info) in Hi.
  set (fp := artifact_path (download_url info)) in *.
  set (w1 := write_file fp (stream file) w).
  exists (nsteps (file_save file fp) w
          + (nsteps (call_exn (OsPathGetsize fp)) w1 + nsteps (load_catalog c) w1)).
  rewrite !replicate_add, <-!app_assoc.
  rewrite (schedule_handler_phase (file_save file fp) _ _ i pool w _ Hi).
  rewrite run_file_save, decide_False by done. cbn [fst snd finished]. fold w1.
  cbn [mbind Prog_bind prog_bind].
  erewrite (schedule_handler_phase (call_exn (OsPathGetsize fp)))
    by (apply list_lookup_insert_eq; by eapply lookup_lt_Some).
  unfold w1. rewrite run_getsize_written. fold w1.
  cbn [fst snd finished]. rewrite list_insert_insert_eq.
  cbn [mbind Prog_bind prog_bind].
  erewrite (schedule_handler_phase (load_catalog c))
    by (apply list_lookup_insert_eq; by eapply lookup_lt_Some).
  rewrite run_load_catalog. cbn [fst snd finished]. rewrite list_insert_insert_eq.
  cbn [mbind Prog_bind prog_bind].
  unfold w1 at 1. unfold fp at 1. rewrite catalog_write_artifact. done.
Qed.

Lemma run_get_history c w :
  run (get_history c) w
  = (inr (mkResponse 200 (JsonVersions (sort_reverse release_date (catalog c w)))), w).
Proof. unfold get_history. by rewrite run_try_except, run_bind, run_load_catalog. Qed.

(** An activation and a history query, the query running between the two
    steps of the replace. *)
Lemma torn_history c ver j t w :
  find_target ver (catalog c w) = Some (j, t) →
  catalog_path c ∉ fs_unwritable w →
  ∃ sched,
    run_schedule sched [activate_catalog c ver; get_history c] w
    = ([Ret (mkResponse 200
               (JsonMessage (channel_label c +:+ ver +:+ " activated successfully")));
        Ret (mkResponse 200 (JsonVersions []))],
       write_file (catalog_path c)
         (json_dump (activate_versions j (catalog c w))) w).
Proof.
  intros Hf Hw.
  set (w1 := write_file (catalog_path c) "" w).
  exists (replicate (nsteps (load_catalog c) w) 0
          ++ 0 :: replicate (nsteps (get_history c) w1) 1 ++ [0])%list.
  erewrite schedule_activate_load by done.
  erewrite schedule_open by done. fold w1. cbn [insert list_insert].
  erewrite (run_schedule_phase (λ p, p) (get_history c) 1);
    [|apply vis_context_id|reflexivity].
  rewrite run_get_history. cbn [fst snd finished insert list_insert].
  unfold w1. rewrite catalog_truncated.
  erewrite schedule_write by done. reflexivity.
Qed.

(** Two uploads on one channel, both loading the catalog before either
    replaces it. *)
Lemma lost_upload now_a request_a file_a now_b request_b file_b w :
  files request_a !! "game_file" = Some file_a →
  upload_version request_a ≠ "" →
  filename file_a ≠ "" →
  allowed_file (filename file_a) = true →
  files request_b !! "game_file" = Some file_b →
  upload_version request_b ≠ "" →
  filename file_b ≠ "" →
  allowed_file (filename file_b) = true →
  upload_target request_a = upload_target request_b →
  let c := upload_target request_b in
  let info_a := upload_info now_a request_a file_a in
  let info_b := upload_info now_b request_b file_b in
  artifact_path (download_url info_a) ∉ fs_unwritable w →
  artifact_path (download_url info_b) ∉ fs_unwritable w →
  catalog_path c ∉ fs_unwritable w →
  ∃ sched w',
    run_schedule sched
      [upload_game_version now_a request_a; upload_game_version now_b request_b] w
    = ([Ret (mkResponse 200 (JsonUploaded (uploaded_message c)
               (upload_version request_a) (String.length (stream file_a))));
        Ret (mkResponse 200 (JsonUploaded (uploaded_message c)
               (upload_version request_b) (String.length (stream file_b))))],
       w')
    ∧ catalog c w' = upload_versions info_b (catalog c w).
Proof.
  intros Hfa Hva Hna Hea Hfb Hvb Hnb Heb Hc c info_a info_b Harta Hartb Hcat.
  set (pool := [upload_game_version now_a request_a;
                upload_game_version now_b request_b]).
  set (w1 := write_file (artifact_path (download_url info_a)) (stream file_a) w).
  set (w2 := write_file (artifact_path (download_url info_b)) (stream file_b) w1).
  set (la := upload_versions info_a (catalog c w)).
  set (lb := upload_versions info_b (catalog c w)).
  set (oka := mkResponse 200 (JsonUploaded (uploaded_message c)
                (upload_version request_a) (String.length (stream file_a)))).
  set (okb := mkResponse 200 (JsonUploaded (uploaded_message c)
                (upload_version request_b) (String.length (stream file_b)))).
  set (h := λ e, error_response 500 ("Error uploading version: " +:+ str_exn e)).
  set (pool1 := [try_except (save_catalog c la ≫= λ _, mret oka) h;
                 upload_game_version now_b request_b]).
  destruct (schedule_upload_load now_b request_b file_b 1 pool1 w1
              [0; 0; 1; 1] Hfb Hvb Hnb Heb Hartb eq_refl) as [nb Hb].
  destruct (schedule_upload_load now_a request_a file_a 0 pool w
              (replicate nb 1 ++ [0; 0; 1; 1])%list Hfa Hva Hna Hea Harta eq_refl)
    as [na Ha].
  rewrite Hc in Ha. fold c info_a w1 la oka h in Ha.
  fold c info_b w2 okb h in Hb.
  replace (catalog c w1) with (catalog c w) in Hb
    by (symmetry; apply catalog_write_artifact).
  fold lb in Hb.
  eexists _, _. split.
  - rewrite Ha. cbn [insert list_insert pool]. fold pool1. rewrite Hb.
    cbn [insert list_insert pool1].
    erewrite schedule_open by done.
    erewrite schedule_write by done. cbn [insert list_insert].
    erewrite schedule_open by done.
    erewrite schedule_write by done. cbn [insert list_insert].
    reflexivity.
  - apply catalog_write_same.
Qed.

(** C7 (atomicity and serialization), as the code has it.  A replace works
    on the catalog file itself, in two steps: opening it for writing
    truncates it, and the document is written afterwards; nothing is written
    elsewhere and nothing is renamed.  A load between the two steps finds an
    empty catalog: a history query interleaved with an activation can be
    answered with no release at all, although the catalog has releases before
    and after.  Mutations are not serialized: when two uploads on a channel
    both load the catalog before either replaces it, both succeed and the
    catalog ends as the second one computed it from the catalog it loaded,
    without the change of the first. *)
Theorem replace_in_place_unserialized (c : Channel) (w : World) :
  catalog_path c ∉ fs_unwritable w →
  (∀ X, ∃ p1,
     step (save_catalog c X) w = (p1, write_file (catalog_path c) "" w)
     ∧ step p1 (write_file (catalog_path c) "" w)
       = (Ret (), write_file (catalog_path c) (json_dump X) w)
     ∧ catalog c (write_file (catalog_path c) "" w) = [])
  ∧
  (∀ ver, ver ∈ version <$> catalog c w →
     ∃ sched ok w',
       run_schedule sched [activate_catalog c ver; get_history c] w
       = ([Ret ok; Ret (mkResponse 200 (JsonVersions []))], w')
       ∧ status ok = 200 ∧ catalog c w ≠ [] ∧ catalog c w' ≠ [])
  ∧
  (∀ now_a request_a file_a now_b request_b file_b,
     files request_a !! "game_file" = Some file_a →
     upload_version request_a ≠ "" →
     filename file_a ≠ "" →
     allowed_file (filename file_a) = true →
     files request_b !! "game_file" = Some file_b →
     upload_version request_b ≠ "" →
     filename file_b ≠ "" →
     allowed_file (filename file_b) = true →
     upload_target request_a = c →
     upload_target request_b = c →
     artifact_path (download_url (upload_info now_a request_a file_a)) ∉ fs_unwritable w →
     artifact_path (download_url (upload_info now_b request_b file_b)) ∉ fs_unwritable w →
     ∃ sched ok_a ok_b w',
       run_schedule sched
         [upload_game_version now_a request_a; upload_game_version now_b request_b] w
       = ([Ret ok_a; Ret ok_b], w')
       ∧ status ok_a = 200 ∧ status ok_b = 200
       ∧ catalog c w'
         = upload_versions (upload_info now_b request_b file_b) (catalog c w)).
Proof.
  intros Hw. split; [|split].
  - intros X. eexists. split; [|split].
    + unfold save_catalog. fold (catalog_path c). cbn.
      rewrite decide_False by done. reflexivity.
    + cbn. unfold write_file, set_files. cbn.
      by rewrite lookup_insert_eq, insert_insert_eq.
    + apply catalog_truncated.
  - intros ver Hin.
    destruct (find_target_is_Some _ _ Hin) as [[j t] Hf].
    destruct (torn_history c ver j t w Hf Hw) as [sched Hrun].
    eexists sched, _, _. split; [exact Hrun|]. split; [done|].
    rewrite catalog_write_same. split.
    + intros E. rewrite E in Hin. by apply elem_of_nil in Hin.
    + intros E. rewrite <-versions_activate with (i := j), E in Hin.
      by apply elem_of_nil in Hin.
  - intros now_a request_a file_a now_b request_b file_b
      Hfa Hva Hna Hea Hfb Hvb Hnb Heb Hca Hcb Harta Hartb.
    destruct (lost_upload now_a request_a file_a now_b request_b file_b w)
      as (sched & w' & Hrun & Hcat); try done.
    { by rewrite Hca, Hcb. }
    { by rewrite Hcb. }
    rewrite Hcb in Hrun, Hcat.
    eexists sched, _, _, w'. split; [exact Hrun|]. done.
Qed.

(** C9 (authorization): the mutation routes are registered without
    [login_required]; the view function of every route but the admin page
    gives the same program whatever the session holds.  A request with an
    empty session is redirected away from the admin page, yet the same
    request activates a version, and the catalog is replaced. *)
Theorem mutations_ignore_session :
  (∀ now r request s,
     r ≠ GET_admin →
     view_function now r (mkRequest (form request) (files request) s)
     = view_function now r request)
  ∧
  (let request := mkRequest ∅ ∅ ∅ in
   let old := mkRelease "1.0" "game-v1.0.zip" "" 3 "2024-01-01T00:00:00" false in
   let new := mkRelease "1.1" "game-v1.1.zip" "" 4 "2024-02-01T00:00:00" true in
   let w := write_file (catalog_path Game) (json_dump [old; new]) (mkWorld ∅ ∅) in
   session request !! "user_id" = None
   ∧ serve "2024-03-01T00:00:00" GET_admin request w
     = (mkResponse 302 (Redirect "login"), w)
   ∧ ∃ w', serve "2024-03-01T00:00:00" (POST_api_version_activate "1.0") request w
           = (mkResponse 200 (JsonMessage "Version 1.0 activated successfully"), w')
           ∧ catalog Game w' = [set_is_active true old; set_is_active false new]).
Proof.
  split.
  - intros now r request s Hr. destruct r; done.
  - cbn zeta. split; [done|]. split; [done|].
    unfold serve, view_function, activate_version.
    rewrite run_activate, catalog_write_same. cbn.
    eexists. split; [reflexivity|]. by rewrite catalog_write_same.
Qed.

End ServerProps.

(** ** Operations as catalog transitions *)

Section Transitions.
Context `{JsonLib}.

Lemma fs_unwritable_write p text w :
  fs_unwritable (write_file p text w) = fs_unwritable w.
Proof. reflexivity. Qed.

(** What an operation answers and what it does to the catalogs: an answer
    other than 200 leaves every catalog as it was; an answer 200 makes the
    transition of the operation on one channel and leaves the other channel
    alone. *)
Lemma handler_cases op w :
  ∃ resp,
    run (handler op) w = (inr resp, perform op w)
    ∧ fs_unwritable (perform op w) = fs_unwritable w
    ∧ ((status resp ∈ [400; 404; 500]
        ∧ ∀ c, catalog c (perform op w) = catalog c w)
       ∨ (status resp = 200
          ∧ ∃ c, transition c op (catalog c w) (catalog c (perform op w))
                 ∧ ∀ c', c' ≠ c → catalog c' (perform op w) = catalog c' w)).
Proof.
  unfold perform. destruct op as [now request|c ver|c ver]; cbn [handler].
  - destruct (decide (rejected request)) as [Hr|Hr].
    { destruct (run_upload_rejected now request w Hr) as [msg ->].
      eexists. split; [done|]. split; [done|]. left. split; [set_solver|done]. }
    destruct (not_rejected _ Hr) as (file & Hf & Hv & Hn & Hext).
    rewrite (run_upload_valid now request file w Hf Hv Hn Hext).
    repeat case_decide; (eexists; split; [done|]; split; [done|]).
    + left. split; [set_solver|done].
    + left. split; [set_solver|]. intros c. apply catalog_write_artifact.
    + right. split; [done|]. exists (upload_target request). cbn [snd]. split.
      * rewrite catalog_write_same. by econstructor.
      * intros c' Hc'. rewrite catalog_write_other, catalog_write_artifact; [done|].
        by intros ?%catalog_path_inj.
  - rewrite run_activate.
    destruct (find_target ver (catalog c w)) as [[i t]|] eqn:E.
    + case_decide; (eexists; split; [done|]; split; [done|]).
      * left. split; [set_solver|done].
      * right. split; [done|]. exists c. cbn [snd]. split.
        -- rewrite catalog_write_same. by econstructor.
        -- intros c' Hc'. rewrite catalog_write_other; [done|].
           by intros ?%catalog_path_inj.
    + eexists. split; [done|]. split; [done|]. left. split; [set_solver|done].
  - rewrite run_delete.
    destruct (find_target ver (catalog c w)) as [[i t]|] eqn:E.
    2:{ eexists. split; [done|]. split; [done|]. left. split; [set_solver|done]. }
    destruct (is_active t) eqn:Ha.
    { eexists. split; [done|]. split; [done|]. left. split; [set_solver|done]. }
    cbn zeta.
    destruct (fs_files w !! artifact_path (download_url t));
      repeat case_decide; (eexists; split; [done|]; split; [done|]);
      first
        [ left; split; [set_solver|]; intros c0; cbn [snd];
          by rewrite ?catalog_remove_artifact
        | right; split; [done|]; exists c; cbn [snd]; split;
          [ rewrite catalog_write_same; by econstructor
          | intros c' Hc'; rewrite catalog_write_other, ?catalog_remove_artifact;
            [done|by intros ?%catalog_path_inj] ] ].
Qed.

End Transitions.

Section CatalogProps.
Context `{JsonLib}.

Lemma transition_channel c op l l' : transition c op l l' → channel_of op = c.
Proof. by destruct 1. Qed.

(** A property of a catalog that every transition keeps holds after every
    operation of a sequence. *)
Lemma states_invariant (P : list Release → Prop) c ops w :
  (∀ op l l', transition c op l l' → P l → P l') →
  P (catalog c w) →
  Forall (λ w', P (catalog c w')) (states ops w).
Proof.
  intros Hstep. revert w. induction ops as [|op ops IH]; intros w HP; cbn; [done|].
  assert (P (catalog c (perform op w))) as HP'.
  { destruct (handler_cases op w) as (resp & _ & _ & [[_ Hsame]|[_ (c0 & Ht & Hother)]]).
    - by rewrite Hsame.
    - destruct (decide (c = c0)) as [->|Hc]; [by eapply Hstep|].
      by rewrite Hother. }
  constructor; [done|by apply IH].
Qed.

(** X1: a handler never lets an exception escape: every upload, activation
    and deletion ends with a response, and its status is 200, 400, 404 or
    500. *)
Theorem handlers_always_answer (op : Operation) (w : World) :
  ∃ resp, run (handler op) w = (inr resp, perform op w)
          ∧ status resp ∈ [200; 400; 404; 500].
Proof.
  destruct (handler_cases op w) as (resp & Hrun & _ & [[Hst _]|[Hst _]]);
    exists resp; (split; [done|]).
  - by right.
  - rewrite Hst. by left.
Qed.


(** X3: an operation changes the catalog of its own channel only: uploads,
    activations and deletions on one channel leave the catalog of the other
    channel as it was. *)
Theorem operation_keeps_other_channel (op : Operation) (w : World) (c : Channel) :
  c ≠ channel_of op →
  catalog c (perform op w) = catalog c w.
Proof.
  intros Hc.
  destruct (handler_cases op w) as (resp & _ & _ & [[_ Hsame]|[_ (c0 & Ht & Hother)]]);
    [done|].
  apply Hother. by rewrite <-(transition_channel _ _ _ _ Ht).
Qed.




Lemma transition_named c op l l' :
  transition c op l l' →
  Forall (named_by_version c) l → Forall (named_by_version c) l'.
Proof.
  intros Ht Hl.
  destruct Ht as [now request file l Hf Hr Hc|ver i t l Hf|ver i t l Hf Ha].
  - unfold upload_versions. apply Forall_app. split.
    + apply Forall_fmap. apply Forall_forall.
      intros v [_ Hv]%list_elem_of_filter.
      rewrite Forall_forall in Hl. apply Hl in Hv. by destruct v.
    + constructor; [|done]. split; [|by rewrite <-Hc].
      cbn. destruct (not_rejected _ Hr) as (? & _ & ? & _). done.
  - unfold activate_versions. apply Forall_forall.
    intros v (j & Hj)%list_elem_of_lookup_1.
    rewrite Forall_forall in Hl.
    destruct (decide (i = j)) as [->|Hij].
    + rewrite list_lookup_alter_eq, list_lookup_fmap in Hj.
      destruct (l !! j) as [x|] eqn:E; [|done]. injection Hj as <-.
      apply list_elem_of_lookup_2, Hl in E. by destruct x.
    + rewrite list_lookup_alter_ne, list_lookup_fmap in Hj by done.
      destruct (l !! j) as [x|] eqn:E; [|done]. injection Hj as <-.
      apply list_elem_of_lookup_2, Hl in E. by destruct x.
  - unfold delete_versions. apply Forall_forall.
    intros v [_ Hv]%list_elem_of_filter.
    rewrite Forall_forall in Hl. by apply Hl.
Qed.

(** X5: the entries of a catalog are named by their version: starting from an
    empty catalog, after every operation each entry of the channel has a
    version that is not empty and the [download_url] that an upload of that
    version on that channel writes. *)
Theorem entries_named_by_version (c : Channel) (ops : list Operation) (w : World) :
  catalog c w = [] →
  Forall (λ w', Forall (named_by_version c) (catalog c w')) (states ops w).
Proof.
  intros Hempty. apply (states_invariant (Forall (named_by_version c))).
  - intros op l l'. apply transition_named.
  - by rewrite Hempty.
Qed.

(** X6: a successful activation changes nothing but the flags: the catalog
    keeps its entries in their order with all their other fields, the entry
    the loop found is active and every other entry is inactive; the version
    query then finds that entry. *)
Theorem activate_marks_only_target (c : Channel) (ver : string) (i : nat)
    (t : Release) (w : World) :
  find_target ver (catalog c w) = Some (i, t) →
  catalog_path c ∉ fs_unwritable w →
  let w' := perform (Activate c ver) w in
  (∀ j, catalog c w' !! j
        = set_is_active (bool_decide (j = i)) <$> catalog c w !! j)
  ∧ active_release (catalog c w') = Some (set_is_active true t)
  ∧ version (set_is_active true t) = ver.
Proof.
  intros Hf Hw w'. unfold w', perform. cbn [handler].
  rewrite run_activate, Hf, decide_False by done. cbn [snd].
  rewrite catalog_write_same.
  apply find_target_Some in Hf as [Hi Hv].
  assert (∀ j, activate_versions i (catalog c w) !! j
               = set_is_active (bool_decide (j = i)) <$> catalog c w !! j) as Hlook.
  { intros j. unfold activate_versions. destruct (decide (j = i)) as [->|Hne].
    - rewrite list_lookup_alter_eq, list_lookup_fmap, bool_decide_eq_true_2 by done.
      by destruct (catalog c w !! i) as [[]|].
    - rewrite list_lookup_alter_ne, list_lookup_fmap, bool_decide_eq_false_2 by done.
      done. }
  split; [done|]. split; [|by destruct t].
  unfold active_release.
  assert (list_find (λ v, is_active v = true) (activate_versions i (catalog c w))
          = Some (i, set_is_active true t)) as ->; [|done].
  apply list_find_Some. split; [|split].
  - by rewrite Hlook, Hi, bool_decide_eq_true_2.
  - done.
  - intros j y Hj Hlt. rewrite Hlook, bool_decide_eq_false_2 in Hj by lia.
    destruct (catalog c w !! j); [|done]. injection Hj as <-. done.
Qed.

Lemma others_inactive versions i t :
  active_count versions = 1 →
  versions !! i = Some t →
  is_active t = true →
  ∀ j x, versions !! j = Some x → j ≠ i → is_active x = false.
Proof.
  revert i. induction versions as [|v l IH]; intros i Hone Hi Ha j x Hj Hne;
    [done|].
  rewrite active_count_cons in Hone.
  destruct i as [|i], j as [|j]; try done; cbn in Hi, Hj.
  - injection Hi as ->. rewrite Ha in Hone.
    assert (active_count l = 0) as Hzero by lia.
    apply list_elem_of_lookup_2 in Hj.
    destruct (is_active x) eqn:Hx; [|done].
    unfold active_count in Hzero. apply length_zero_iff_nil in Hzero.
    assert (x ∈ filter (λ v, is_active v = true) l) as Hin
      by (by apply list_elem_of_filter).
    rewrite Hzero in Hin. by apply elem_of_nil in Hin.
  - injection Hj as ->. destruct (is_active x) eqn:Hx; [|done].
    assert (active_count l = 0) as Hzero by lia.
    apply list_elem_of_lookup_2 in Hi.
    unfold active_count in Hzero. apply length_zero_iff_nil in Hzero.
    assert (t ∈ filter (λ v, is_active v = true) l) as Hin
      by (by apply list_elem_of_filter).
    rewrite Hzero in Hin. by apply elem_of_nil in Hin.
  - destruct (is_active v).
    + assert (active_count l = 0) as Hzero by lia.
      apply list_elem_of_lookup_2 in Hi.
      unfold active_count in Hzero. apply length_zero_iff_nil in Hzero.
      assert (t ∈ filter (λ v, is_active v = true) l) as Hin
        by (by apply list_elem_of_filter).
      rewrite Hzero in Hin. by apply elem_of_nil in Hin.
    + eapply (IH i); [lia|done..|]. congruence.
Qed.

(** X7: activating the version that is active already is a no-op: in a
    catalog with one active release the activation of that release leaves the
    catalog exactly as it was. *)
Theorem reactivation_keeps_catalog (c : Channel) (ver : string) (i : nat)
    (t : Release) (w : World) :
  active_count (catalog c w) = 1 →
  find_target ver (catalog c w) = Some (i, t) →
  is_active t = true →
  catalog c (perform (Activate c ver) w) = catalog c w.
Proof.
  intros Hone Hf Ha. unfold perform. cbn [handler].
  rewrite run_activate, Hf. case_decide; [done|]. cbn [snd].
  rewrite catalog_write_same.
  apply find_target_Some in Hf as [Hi _].
  apply list_eq. intros j. unfold activate_versions.
  destruct (decide (j = i)) as [->|Hne].
  - rewrite list_lookup_alter_eq, list_lookup_fmap, Hi. cbn.
    f_equal. destruct t; cbn in *; by subst.
  - rewrite list_lookup_alter_ne, list_lookup_fmap by done.
    destruct (catalog c w !! j) as [x|] eqn:E; [|done]. cbn. f_equal.
    pose proof (others_inactive _ _ _ Hone Hi Ha j x E Hne) as Hx.
    destruct x; cbn in *; by subst.
Qed.



(** X9: a deleted version is gone: after a deletion answered with 200, a
    second deletion and an activation of that version are both answered with
    404 and change nothing. *)
Theorem deleted_version_is_unknown (c : Channel) (ver : string) (w w' : World)
    (resp : Response) :
  run (delete_catalog c ver) w = (inr resp, w') →
  status resp = 200 →
  run (delete_catalog c ver) w'
  = (inr (mkResponse 404 (JsonError (channel_label c +:+ ver +:+ " not found"))), w')
  ∧ run (activate_catalog c ver) w'
    = (inr (mkResponse 404 (JsonError (channel_label c +:+ ver +:+ " not found"))), w').
Proof.
  intros Hrun Hst.
  destruct (handler_cases (Delete c ver) w)
    as (resp' & Hrun' & _ & [[Hbad _]|[_ (c0 & Ht & _)]]);
    cbn [handler] in Hrun'; rewrite Hrun in Hrun'; injection Hrun' as <- ->.
  { rewrite Hst in Hbad. by apply (bool_decide_pack _) in Hbad. }
  pose proof (transition_channel _ _ _ _ Ht) as Hc0. cbn in Hc0. subst c0.
  inversion Ht as [| |? i t ? Hf Ha Hop Hl Hcat].
  assert (find_target ver (catalog c (perform (Delete c ver) w)) = None) as Hnone.
  { apply find_target_None. rewrite <-Hcat. unfold delete_versions.
    intros (v & -> & Hv%list_elem_of_filter)%list_elem_of_fmap. tauto. }
  by rewrite run_delete, run_activate, Hnone.
Qed.

Lemma run_get_active c w :
  run (get_active c) w = (inr (active_release (catalog c w)), w).
Proof. unfold get_active. by rewrite run_bind, run_load_catalog. Qed.

Lemma run_get_current base_url c w :
  run (get_current base_url c) w
  = (inr match active_release (catalog c w) with
         | None => (404, VersionError (no_version_message c))
         | Some v =>
             (200, VersionInfo (version v)
                     (if negb (String.prefix "http" (download_url v))
                      then base_url +:+ "/downloads/" +:+ download_url v
                      else download_url v)
                     (release_notes v) (file_size v))
         end, w).
Proof.
  unfold get_current. rewrite run_try_except, run_bind, run_get_active.
  by destruct (active_release (catalog c w)).
Qed.

Lemma active_release_None versions :
  active_release versions = None ↔ active_count versions = 0.
Proof.
  unfold active_release, active_count.
  rewrite fmap_None, list_find_None, length_zero_iff_nil. split.
  - intros Hall. apply filter_none. by apply Forall_forall.
  - intros Hnil. apply Forall_forall. intros v Hv Ha.
    assert (v ∈ filter (λ v, is_active v = true) versions) as Hin
      by (by apply list_elem_of_filter).
    rewrite Hnil in Hin. by apply elem_of_nil in Hin.
Qed.

Lemma active_release_last l x :
  Forall (λ v, is_active v = false) l →
  is_active x = true →
  active_release (l ++ [x]) = Some x.
Proof.
  unfold active_release. intros Hl Hx.
  induction Hl as [|v l Hv _ IH]; csimpl.
  - by rewrite decide_True.
  - rewrite decide_False by congruence.
    destruct (list_find _ (l ++ [x])) as [[]|]; cbn in *; congruence.
Qed.

Lemma artifact_name_not_http c ver :
  String.prefix "http" (artifact_name c ver) = false.
Proof. by destruct c. Qed.

(** X10: the version query answers 404 on an empty catalog and only there:
    for a catalog with unique versions and one active release when it is not
    empty, the query answers 404 iff the catalog is empty, and otherwise 200
    with the version, notes and size of an active entry of the catalog; it
    never changes the file system. *)
Theorem version_query_finds_active (base_url : string) (c : Channel) (w : World) :
  well_formed (catalog c w) →
  ∃ st body,
    run (get_current base_url c) w = (inr (st, body), w)
    ∧ (st = 404 ↔ catalog c w = [])
    ∧ (catalog c w ≠ [] →
       st = 200
       ∧ ∃ v url, v ∈ catalog c w ∧ is_active v = true
                  ∧ body = VersionInfo (version v) url (release_notes v) (file_size v)).
Proof.
  intros [_ Hwf]. rewrite run_get_current.
  destruct (active_release (catalog c w)) as [v|] eqn:E.
  - eexists _, _. split; [done|].
    assert (catalog c w ≠ []) as Hne.
    { intros Hnil. rewrite Hnil in E. discriminate E. }
    split; [done|]. intros _. split; [done|].
    unfold active_release in E.
    destruct (list_find _ (catalog c w)) as [[i v']|] eqn:Hfind; [|done].
    injection E as ->. apply list_find_Some in Hfind as (Hi & Ha & _).
    eexists v, _. split; [by eapply list_elem_of_lookup_2|]. done.
  - eexists _, _. split; [done|].
    apply active_release_None in E.
    destruct Hwf as [Hnil|Hone]; [|lia].
    split; [done|]. done.
Qed.

(** X11: an upload is what the version query reports next: after an upload
    answered with 200 the query on that channel answers 200 with the uploaded
    version, the URL [BASE_URL/downloads/] followed by the artifact name, the
    release notes and the size of the payload. *)
Theorem upload_then_version_query (base_url now : string) (request : Request)
    (file : FileStorage) (w w' : World) (resp : Response) :
  files request !! "game_file" = Some file →
  run (upload_game_version now request) w = (inr resp, w') →
  status resp = 200 →
  let c := upload_target request in
  run (get_current base_url c) w'
  = (inr (200, VersionInfo (upload_version request)
                 (base_url +:+ "/downloads/"
                  +:+ artifact_name c (upload_version request))
                 (default "" (form request !! "release_notes"))
                 (String.length (stream file))), w').
Proof.
  intros Hf Hrun Hst c.
  destruct (handler_cases (Upload now request) w)
    as (resp' & Hrun' & _ & [[Hbad _]|[_ (c0 & Ht & _)]]);
    cbn [handler] in Hrun'; rewrite Hrun in Hrun'; injection Hrun' as <- ->.
  { rewrite Hst in Hbad. by apply (bool_decide_pack _) in Hbad. }
  pose proof (transition_channel _ _ _ _ Ht) as Hc0. cbn in Hc0. subst c0.
  inversion Ht as [? ? file' ? Hf' Hr Hc Hop Hl Hcat| |].
  rewrite Hf in Hf'. injection Hf' as <-.
  unfold c. rewrite run_get_current, <-Hcat.
  unfold upload_versions. rewrite active_release_last; [| |done].
  - cbn [version download_url release_notes file_size upload_info].
    by rewrite artifact_name_not_http.
  - apply Forall_fmap, Forall_forall. by intros [] _.
Qed.

(** *** Artifacts of the catalog entries *)









End CatalogProps.

(** ** File names *)

Lemma rsplit_dot_Some s ext :
  rsplit_dot s = Some ext → ∃ stem, s = stem +:+ "." +:+ ext.
Proof.
  revert ext. induction s as [|c s IH]; intros ext Hs; [done|].
  cbn in Hs. destruct (rsplit_dot s) as [e|] eqn:E.
  - injection Hs as ->. destruct (IH ext eq_refl) as [stem ->].
    by exists (String c stem).
  - destruct (Ascii.eqb_spec c "."); [|done]. injection Hs as ->. subst c.
    by exists "".
Qed.

Lemma rsplit_dot_app stem ext :
  rsplit_dot ext = None → rsplit_dot (stem +:+ "." +:+ ext) = Some ext.
Proof.
  intros Hext. induction stem as [|c stem IH].
  - change ("" +:+ "." +:+ ext) with (String "." ext). cbn. by rewrite Hext.
  - rewrite append_cons. cbn. by rewrite IH.
Qed.

Lemma lower_zip_no_dot ext : lower ext = "zip" → rsplit_dot ext = None.
Proof.
  destruct ext as [|a [|b [|c [|d ext]]]]; try done.
  cbn. intros Heq. injection Heq as Ha Hb Hc.
  destruct (Ascii.eqb_spec c "."); [by subst c|].
  destruct (Ascii.eqb_spec b "."); [by subst b|].
  destruct (Ascii.eqb_spec a "."); [by subst a|done].
Qed.

(** X13: the allow-list looks at the text after the last dot, whatever its
    case: a file name is accepted exactly when it is some stem, a dot, and an
    extension whose lower case is [zip]. *)
Theorem allowed_file_iff (name : string) :
  allowed_file name = true
  ↔ ∃ stem ext, name = stem +:+ "." +:+ ext ∧ lower ext = "zip".
Proof.
  unfold allowed_file. split.
  - destruct (rsplit_dot name) as [ext|] eqn:E; [|done].
    intros Hin%bool_decide_eq_true. apply list_elem_of_singleton in Hin.
    destruct (rsplit_dot_Some _ _ E) as [stem ->]. by exists stem, ext.
  - intros (stem & ext & -> & Hlow).
    rewrite rsplit_dot_app by (by apply lower_zip_no_dot).
    apply bool_decide_eq_true. rewrite Hlow. by left.
Qed.

(** ** The user table *)

Lemma filter_all {A} (P : A → Prop) `{!∀ x, Decision (P x)} (l : list A) :
  (∀ x, x ∈ l → P x) → filter P l = l.
Proof.
  induction l as [|x l IH]; intros Hall; [done|].
  rewrite filter_cons_True by (apply Hall; by left).
  f_equal. apply IH. intros; apply Hall. by right.
Qed.

Section UsersProps.
Context `{PasswordLib}.

Lemma insert_user_Some name hash now db db' :
  insert_user name hash now db = Some db' →
  (name ∉ username <$> users db)
  ∧ db' = mkUserDb (users db ++ [mkUser (S (sequence db)) name hash now true])
            (S (sequence db)).
Proof. unfold insert_user. case_bool_decide; [done|]. by intros [= <-]. Qed.

Lemma insert_user_None name hash now db :
  insert_user name hash now db = None ↔ name ∈ username <$> users db.
Proof. unfold insert_user. case_bool_decide; naive_solver. Qed.

Lemma insert_user_ok name hash now db db' :
  insert_user name hash now db = Some db' → table_ok db → table_ok db'.
Proof.
  intros [Hnew ->]%insert_user_Some (Hnames & Hids & Hrange).
  unfold table_ok. cbn. rewrite !fmap_app. cbn. split; [|split].
  - apply NoDup_app. split; [done|]. split; [|apply NoDup_singleton].
    intros x Hx ->%list_elem_of_singleton. done.
  - apply NoDup_app. split; [done|]. split; [|apply NoDup_singleton].
    intros x (u & -> & Hu)%list_elem_of_fmap Hx%list_elem_of_singleton.
    rewrite Forall_forall in Hrange. specialize (Hrange u Hu). lia.
  - apply Forall_app. split.
    + eapply Forall_impl; [done|]. intros u Hu. cbn in Hu. lia.
    + constructor; [cbn; lia|done].
Qed.

Lemma delete_user_length id (l : list User) :
  NoDup (user_id <$> l) →
  List.length l ≤ S (List.length (filter (λ u, user_id u ≠ id) l)).
Proof.
  induction l as [|u l IH]; intros Hnd; [cbn; lia|].
  rewrite fmap_cons in Hnd. apply NoDup_cons in Hnd as [Hu Hnd].
  rewrite filter_cons. destruct (decide (user_id u ≠ id)) as [Hne|Heq].
  - cbn. specialize (IH Hnd). lia.
  - apply dec_stable in Heq.
    rewrite filter_all; [cbn; lia|].
    intros x Hx Hid. apply Hu. rewrite Heq, <-Hid. by apply list_elem_of_fmap_2.
Qed.

Lemma NoDup_fmap_filter {A B} (f : A → B) (P : A → Prop)
    `{!∀ x, Decision (P x)} (l : list A) :
  NoDup (f <$> l) → NoDup (f <$> filter P l).
Proof.
  induction l as [|u l IH]; intros Hnd; [constructor|].
  rewrite fmap_cons in Hnd. apply NoDup_cons in Hnd as [Hu Hnd].
  rewrite filter_cons. destruct (decide _); [|by apply IH].
  rewrite fmap_cons. apply NoDup_cons. split; [|by apply IH].
  intros (x & Hx & Hin%list_elem_of_filter)%list_elem_of_fmap.
  apply Hu. rewrite Hx. apply list_elem_of_fmap_2. tauto.
Qed.

Lemma delete_user_ok id db : table_ok db → table_ok (delete_user id db).2.
Proof.
  intros (Hnames & Hids & Hrange). unfold delete_user.
  destruct (List.length (users db) <=? 1); [done|]. cbn.
  split; [|split].
  - by apply NoDup_fmap_filter.
  - by apply NoDup_fmap_filter.
  - apply Forall_forall. intros u [_ Hu]%list_elem_of_filter.
    rewrite Forall_forall in Hrange. by apply Hrange.
Qed.

Lemma create_user_ok name password salt now db :
  table_ok db → table_ok (create_user name password salt now db).2.
Proof.
  intros Hok. unfold create_user.
  destruct (insert_user _ _ _ _) as [db'|] eqn:E; [|done].
  by eapply insert_user_ok.
Qed.

Lemma authenticate_app name password l x seq seq' :
  name ≠ username x →
  authenticate_user name password (mkUserDb (l ++ [x]) seq)
  = authenticate_user name password (mkUserDb l seq').
Proof.
  intros Hne. unfold authenticate_user. cbn.
  induction l as [|u l IH]; csimpl.
  - by rewrite decide_False by congruence.
  - destruct (decide (username u = name)); [done|].
    destruct (list_find _ (l ++ [x])) as [[]|], (list_find _ l) as [[]|];
      cbn in *; try done; by simplify_eq.
Qed.

Lemma authenticate_new name password l x seq :
  name ∉ username <$> l →
  username x = name →
  authenticate_user name password (mkUserDb (l ++ [x]) seq)
  = if check_password_hash (password_hash x) password
    then Some (user_id x) else None.
Proof.
  intros Hnew Hx. unfold authenticate_user. cbn.
  induction l as [|u l IH]; csimpl.
  - by rewrite decide_True.
  - rewrite fmap_cons in Hnew. apply not_elem_of_cons in Hnew as [Hu Hl].
    rewrite decide_False by congruence. specialize (IH Hl).
    destruct (list_find _ (l ++ [x])) as [[]|]; cbn in *; [done|].
    by destruct (check_password_hash _ _).
Qed.

(** X14: user names are unique: [create_user] answers [False] exactly when
    the name is taken and then leaves the table as it was; otherwise the new
    row gets an id no row has, and in both cases names and ids stay unique. *)
Theorem create_user_unique_name (name password salt now : string) (db : UserDb) :
  table_ok db →
  let result := create_user name password salt now db in
  (result.1 = false ↔ name ∈ username <$> users db)
  ∧ (result.1 = false → result.2 = db)
  ∧ (result.1 = true →
     ∃ hash, users result.2
             = (users db ++ [mkUser (S (sequence db)) name hash now true])%list
             ∧ (S (sequence db) ∉ user_id <$> users db))
  ∧ table_ok result.2.
Proof.
  intros Hok result. split; [|split; [|split]].
  - unfold result, create_user.
    destruct (insert_user _ _ _ _) as [db'|] eqn:E; cbn.
    + apply insert_user_Some in E as [Hnew _]. naive_solver.
    + apply insert_user_None in E. naive_solver.
  - unfold result, create_user. by destruct (insert_user _ _ _ _).
  - unfold result, create_user.
    destruct (insert_user _ _ _ _) as [db'|] eqn:E; cbn; [|done].
    intros _. apply insert_user_Some in E as [_ ->]. cbn.
    eexists. split; [done|].
    destruct Hok as (_ & _ & Hrange). rewrite Forall_forall in Hrange.
    intros (u & Hid & Hu)%list_elem_of_fmap. specialize (Hrange u Hu). lia.
  - by apply create_user_ok.
Qed.

Lemma create_user_true name password salt now db db' :
  create_user name password salt now db = (true, db') →
  (name ∉ username <$> users db)
  ∧ authenticate_user name password db' = Some (S (sequence db))
  ∧ ∀ other pw, other ≠ name →
      authenticate_user other pw db' = authenticate_user other pw db.
Proof.
  unfold create_user.
  destruct (insert_user _ _ _ _) as [db0|] eqn:E; [|done].
  intros [= <-]. apply insert_user_Some in E as [Hnew ->].
  split; [done|]. split.
  - rewrite authenticate_new by done. cbn. by rewrite check_generated.
  - intros other pw Hne. destruct db as [l seq]. cbn.
    by apply authenticate_app.
Qed.

(** X15: a user that was created can log in, and nobody else's login
    changes: after [create_user] answered [True], [authenticate_user] with
    the same name and password gives the id of the new row, and for every
    other name it answers as before. *)
Theorem created_user_authenticates (name password salt now : string)
    (db db' : UserDb) :
  create_user name password salt now db = (true, db') →
  authenticate_user name password db' = Some (S (sequence db))
  ∧ ∀ other pw, other ≠ name →
      authenticate_user other pw db' = authenticate_user other pw db.
Proof. intros Hc. by apply create_user_true in Hc as (_ & ? & ?). Qed.

(** X16: the last user cannot be deleted: [delete_user] answers [False]
    exactly when the table has at most one row; a table that has a row has
    one after the call, and names and ids stay unique. *)
Theorem delete_user_keeps_a_user (id : nat) (db : UserDb) :
  table_ok db →
  users db ≠ [] →
  ((delete_user id db).1 = false ↔ List.length (users db) ≤ 1)
  ∧ users (delete_user id db).2 ≠ []
  ∧ table_ok (delete_user id db).2.
Proof.
  intros Hok Hne. split; [|split; [|by apply delete_user_ok]].
  - unfold delete_user. destruct (Nat.leb_spec (List.length (users db)) 1); cbn.
    + done.
    + split; [done|lia].
  - unfold delete_user. destruct (Nat.leb_spec (List.length (users db)) 1); cbn.
    + done.
    + destruct Hok as (_ & Hids & _).
      pose proof (delete_user_length id (users db) Hids) as Hlen.
      intros Hnil. rewrite Hnil in Hlen. cbn in Hlen. lia.
Qed.

(** X17: a deleted user cannot log in: after [delete_user] answered [True]
    for the id of a row, [authenticate_user] rejects that row's name with any
    password. *)
Theorem deleted_user_is_rejected (u : User) (password : string) (db db' : UserDb) :
  table_ok db →
  u ∈ users db →
  delete_user (user_id u) db = (true, db') →
  authenticate_user (username u) password db' = None.
Proof.
  intros (Hnames & _ & _) Hu. unfold delete_user.
  destruct (List.length (users db) <=? 1); [done|]. intros [= <-].
  unfold authenticate_user. cbn.
  assert (list_find (λ x, username x = username u)
            (filter (λ x, user_id x ≠ user_id u) (users db)) = None) as ->; [|done].
  apply list_find_None, Forall_forall.
  intros x [Hid Hx]%list_elem_of_filter Hname. apply Hid. f_equal.
  clear Hid. induction (users db) as [|y l IH]; [by apply elem_of_nil in Hu|].
  rewrite fmap_cons in Hnames. apply NoDup_cons in Hnames as [Hy Hnd].
  apply elem_of_cons in Hu as [->|Hu]; apply elem_of_cons in Hx as [->|Hx].
  - done.
  - exfalso. apply Hy. rewrite <-Hname. by apply list_elem_of_fmap_2.
  - exfalso. apply Hy. rewrite Hname. by apply list_elem_of_fmap_2.
  - by apply IH.
Qed.

Lemma init_database_nonempty salt now db : users (init_database salt now db) ≠ [].
Proof.
  unfold init_database. destruct (users db) as [|u l] eqn:E; cbn.
  - unfold insert_user. rewrite E. cbn. done.
  - by rewrite E.
Qed.

(** X18: [init_database] makes the default administrator once: on a table
    without rows it inserts a user who logs in as [admin] with [admin123]; on
    a table with rows it changes nothing, so running it again is a no-op. *)
Theorem init_database_default_admin (salt now salt' now' : string) (db : UserDb) :
  (users db = [] →
   authenticate_user "admin" "admin123" (init_database salt now db)
   = Some (S (sequence db)))
  ∧ (users db ≠ [] → init_database salt now db = db)
  ∧ init_database salt' now' (init_database salt now db)
    = init_database salt now db.
Proof.
  assert (∀ s n d, users d ≠ [] → init_database s n d = d) as Hkeep.
  { intros s n d Hne. unfold init_database. by destruct (users d). }
  split; [|split].
  - intros Hnil. unfold init_database, insert_user. rewrite Hnil.
    rewrite bool_decide_eq_false_2 by apply not_elem_of_nil. cbn.
    unfold authenticate_user. cbn. rewrite decide_True by done. cbn.
    by rewrite check_generated.
  - apply Hkeep.
  - apply Hkeep, init_database_nonempty.
Qed.

(** X19: the user table never runs empty: after [init_database], whatever
    users are created and deleted, the table has a row and names and ids are
    unique. *)
Theorem user_table_never_empty (salt now : string) (db : UserDb)
    (ops : list UserOp) :
  table_ok db →
  let db' := foldl (λ d op, user_step op d) (init_database salt now db) ops in
  users db' ≠ [] ∧ table_ok db'.
Proof.
  intros Hok.
  assert (users (init_database salt now db) ≠ []
          ∧ table_ok (init_database salt now db)) as Hinit.
  { split; [apply init_database_nonempty|].
    unfold init_database. destruct (List.length (users db) =? 0); [|done].
    destruct (insert_user _ _ _ _) as [d|] eqn:E; [|done]. cbn.
    by eapply insert_user_ok. }
  revert Hinit. generalize (init_database salt now db) as d. clear db Hok.
  induction ops as [|op ops IH]; intros d [Hne Hok]; cbn; [done|].
  apply IH. destruct op as [name password s n|id]; cbn.
  - split; [|by apply create_user_ok].
    unfold create_user. destruct (insert_user _ _ _ _) as [d'|] eqn:E; [|done].
    apply insert_user_Some in E as [_ ->]. cbn. by destruct (users d).
  - split; [|by apply delete_user_ok].
    unfold delete_user. destruct (Nat.leb_spec (List.length (users d)) 1); cbn.
    + done.
    + destruct Hok as (_ & Hids & _).
      pose proof (delete_user_length id (users d) Hids) as Hlen.
      intros Hnil. rewrite Hnil in Hlen. cbn in Hlen. lia.
Qed.


End UsersProps.

(** ** The properties on concrete inputs *)

Lemma mutations_keep_one_active_witness :
  let ops := [Upload "2024-01-01T00:00:00" (upload_request "1.0" "build.zip" "abc");
              Upload "2024-02-01T00:00:00" (upload_request "1.1" "build.zip" "abcd");
              Delete Game "1.1";
              Activate Game "1.0";
              Delete Game "1.1"] in
  catalog Game empty_world = []
  ∧ Forall (λ w', catalog_invariant (catalog Game w')) (states ops empty_world).
Proof.
  intros ops. split; [reflexivity|].
  apply (mutations_keep_one_active Game ops empty_world). reflexivity.
Defined.

Lemma save_load_roundtrip_witness :
  (catalog_path Launcher ∉ fs_unwritable empty_world)
  ∧ ∃ w', run (save_catalog Launcher [release_1_1; release_1_0]) empty_world = (inr (), w')
          ∧ run (load_catalog Launcher) w' = (inr [release_1_1; release_1_0], w').
Proof.
  split; [compute_done|].
  apply (save_load_roundtrip Launcher [release_1_1; release_1_0] empty_world).
  compute_done.
Defined.

Lemma activate_idempotent_witness :
  ("1.1" ∈ version <$> catalog Game two_releases)
  ∧ (catalog_path Game ∉ fs_unwritable two_releases)
  ∧ ∃ w1, run (activate_catalog Game "1.1") two_releases
          = (inr (mkResponse 200 (JsonMessage "Version 1.1 activated successfully")), w1)
          ∧ run (activate_catalog Game "1.1") w1
            = (inr (mkResponse 200 (JsonMessage "Version 1.1 activated successfully")), w1).
Proof.
  assert ("1.1" ∈ (version <$> catalog Game two_releases)) as Hin by compute_done.
  assert (catalog_path Game ∉ fs_unwritable two_releases) as Hw by compute_done.
  split; [exact Hin|]. split; [exact Hw|].
  exact (proj1 (activate_idempotent Game "1.1" two_releases) Hin Hw).
Defined.




Lemma upload_rejects_invalid_witness :
  rejected (upload_request "  " "build.zip" "abc")
  ∧ rejected (upload_request "1.0" "build.exe" "abc")
  ∧ rejected (upload_request "1.0" "" "abc")
  ∧ ∃ msg, run (upload_game_version "2024-01-01T00:00:00"
                  (upload_request "1.0" "build.exe" "abc")) two_releases
           = (inr (mkResponse 400 (JsonError msg)), two_releases).
Proof.
  assert (rejected (upload_request "1.0" "build.exe" "abc")) as Hr by compute_done.
  split; [compute_done|]. split; [exact Hr|]. split; [compute_done|].
  exact (upload_rejects_invalid "2024-01-01T00:00:00"
           (upload_request "1.0" "build.exe" "abc") two_releases Hr).
Defined.

(** The claim of C8 that an empty payload is turned down does not hold: an
    upload of zero bytes under an allowed file name is accepted and enters
    the catalog with size 0. *)
Lemma upload_accepts_empty_payload :
  ¬ (∀ (J : JsonLib) now request file w,
       files request !! "game_file" = Some file →
       stream file = "" →
       ∃ msg, run (upload_game_version now request) w
              = (inr (mkResponse 400 (JsonError msg)), w)).
Proof.
  intros Hclaim.
  destruct (Hclaim text_json "2024-01-01T00:00:00"
              (upload_request "1.0" "build.zip" "") (mkFileStorage "build.zip" "")
              empty_world eq_refl eq_refl) as [msg Hrun].
  vm_compute in Hrun. discriminate Hrun.
Qed.

Lemma replace_in_place_unserialized_witness :
  let request_a := upload_request "1.2" "build.zip" "abcde" in
  let request_b := upload_request "1.3" "build.zip" "abcdef" in
  (catalog_path Game ∉ fs_unwritable two_releases)
  ∧ (∃ sched ok w',
       run_schedule sched [activate_catalog Game "1.1"; get_history Game] two_releases
       = ([Ret ok; Ret (mkResponse 200 (JsonVersions []))], w')
       ∧ status ok = 200 ∧ catalog Game two_releases ≠ [] ∧ catalog Game w' ≠ [])
  ∧ (∃ sched ok_a ok_b w',
       run_schedule sched
         [upload_game_version "2024-03-01T00:00:00" request_a;
          upload_game_version "2024-03-02T00:00:00" request_b] two_releases
       = ([Ret ok_a; Ret ok_b], w')
       ∧ status ok_a = 200 ∧ status ok_b = 200
       ∧ (version <$> catalog Game w') = ["1.0"; "1.1"; "1.3"]).
Proof.
  intros request_a request_b.
  assert (catalog_path Game ∉ fs_unwritable two_releases) as Hw by compute_done.
  destruct (replace_in_place_unserialized Game two_releases Hw)
    as (_ & Htorn & Hlost).
  split; [exact Hw|]. split.
  - apply Htorn. compute_done.
  - destruct (Hlost "2024-03-01T00:00:00" request_a (mkFileStorage "build.zip" "abcde")
                "2024-03-02T00:00:00" request_b (mkFileStorage "build.zip" "abcdef"))
      as (sched & ok_a & ok_b & w' & Hrun & Ha & Hb & Hcat);
      [reflexivity|compute_done|compute_done|reflexivity
      |reflexivity|compute_done|compute_done|reflexivity
      |reflexivity|reflexivity|compute_done|compute_done|].
    exists sched, ok_a, ok_b, w'. do 3 (split; [assumption|]).
    rewrite Hcat. by vm_compute.
Defined.

(** The claim of C7 does not hold.  A history query served while version 1.1
    is being activated can report a catalog that is neither the one before
    nor the one after the activation; and two uploads served concurrently
    into an empty catalog can leave a catalog that neither sequential order
    leaves. *)
Lemma replace_neither_atomic_nor_serialized :
  ¬ reads_whole_document Game (activate_catalog Game "1.1") two_releases
  ∧ ¬ serialized Game
        (upload_game_version "2024-01-01T00:00:00" (upload_request "1.0" "build.zip" "abc"))
        (upload_game_version "2024-02-01T00:00:00" (upload_request "1.1" "build.zip" "abcd"))
        empty_world.
Proof.
  split.
  - intros Hclaim.
    destruct (torn_history Game "1.1" 1 release_1_1 two_releases) as [sched Hrun];
      [by vm_compute|compute_done|].
    destruct (Hclaim _ _ _ _ Hrun) as [E|E];
      apply Permutation_length in E; vm_compute in E; discriminate E.
  - intros Hclaim.
    destruct (lost_upload
                "2024-01-01T00:00:00" (upload_request "1.0" "build.zip" "abc")
                (mkFileStorage "build.zip" "abc")
                "2024-02-01T00:00:00" (upload_request "1.1" "build.zip" "abcd")
                (mkFileStorage "build.zip" "abcd") empty_world)
      as (sched & w' & Hrun & Hcat);
      [reflexivity|compute_done|compute_done|reflexivity
      |reflexivity|compute_done|compute_done|reflexivity
      |reflexivity|compute_done|compute_done|compute_done|].
    pose proof (Hcat : catalog Game w' = _) as Hgame.
    destruct (Hclaim _ _ _ _ Hrun) as [E|E];
      rewrite Hgame in E; vm_compute in E; discriminate E.
Qed.

Lemma history_sorted_stable_witness :
  ∃ versions,
    run (get_history Game) two_releases
    = (inr (mkResponse 200 (JsonVersions versions)), two_releases)
    ∧ versions = [release_1_1; release_1_0].
Proof.
  destruct (history_sorted_stable Game two_releases) as (versions & Hrun & _).
  exists versions. split; [exact Hrun|].
  rewrite run_get_history in Hrun. injection Hrun as <-. by vm_compute.
Defined.

(** The artifact name comes from the channel and the version: the client's
    file name and payload do not enter it. *)
Lemma artifact_name_ignores_file now request file file' :
  download_url (upload_info now request file)
  = download_url (upload_info now request file').
Proof. reflexivity. Qed.



Lemma operation_keeps_other_channel_witness :
  let op := Upload "2024-03-01T00:00:00" (upload_request "1.2" "build.zip" "abcde") in
  Game ≠ channel_of (Delete Launcher "1.0")
  ∧ Launcher ≠ channel_of op
  ∧ catalog Game (perform (Delete Launcher "1.0") two_releases)
    = catalog Game two_releases
  ∧ catalog Launcher (perform op two_releases) = catalog Launcher two_releases.
Proof.
  intros op.
  assert (Game ≠ channel_of (Delete Launcher "1.0")) as H1 by compute_done.
  assert (Launcher ≠ channel_of op) as H2 by compute_done.
  split; [exact H1|]. split; [exact H2|]. split.
  - exact (operation_keeps_other_channel (Delete Launcher "1.0") two_releases Game H1).
  - exact (operation_keeps_other_channel op two_releases Launcher H2).
Defined.

Lemma two_releases_well_formed : well_formed (catalog Game two_releases).
Proof. split; [compute_done|]. right. by vm_compute. Defined.


Lemma entries_named_by_version_witness :
  let ops := [Upload "2024-01-01T00:00:00" (upload_request " 1.0 " "build.zip" "abc");
              Upload "2024-02-01T00:00:00" (upload_request "1.1" "other.ZIP" "abcd");
              Activate Game "1.0"] in
  catalog Game empty_world = []
  ∧ Forall (λ w', Forall (named_by_version Game) (catalog Game w'))
      (states ops empty_world).
Proof.
  intros ops. split; [reflexivity|].
  exact (entries_named_by_version Game ops empty_world eq_refl).
Defined.

Lemma activate_marks_only_target_witness :
  let w' := perform (Activate Game "1.1") two_releases in
  find_target "1.1" (catalog Game two_releases) = Some (1, release_1_1)
  ∧ (catalog_path Game ∉ fs_unwritable two_releases)
  ∧ (∀ j, catalog Game w' !! j
          = set_is_active (bool_decide (j = 1)) <$> catalog Game two_releases !! j)
  ∧ active_release (catalog Game w') = Some (set_is_active true release_1_1)
  ∧ version (set_is_active true release_1_1) = "1.1".
Proof.
  intros w'.
  assert (find_target "1.1" (catalog Game two_releases) = Some (1, release_1_1))
    as Hf by (by vm_compute).
  assert (catalog_path Game ∉ fs_unwritable two_releases) as Hw by compute_done.
  split; [exact Hf|]. split; [exact Hw|].
  exact (activate_marks_only_target Game "1.1" 1 release_1_1 two_releases Hf Hw).
Defined.

Lemma reactivation_keeps_catalog_witness :
  active_count (catalog Game two_releases) = 1
  ∧ find_target "1.0" (catalog Game two_releases) = Some (0, release_1_0)
  ∧ is_active release_1_0 = true
  ∧ catalog Game (perform (Activate Game "1.0") two_releases)
    = catalog Game two_releases.
Proof.
  assert (active_count (catalog Game two_releases) = 1) as Hone by (by vm_compute).
  assert (find_target "1.0" (catalog Game two_releases) = Some (0, release_1_0))
    as Hf by (by vm_compute).
  split; [exact Hone|]. split; [exact Hf|]. split; [reflexivity|].
  exact (reactivation_keeps_catalog Game "1.0" 0 release_1_0 two_releases
           Hone Hf eq_refl).
Defined.


Lemma deleted_version_is_unknown_witness :
  let resp := mkResponse 200 (JsonMessage "Version 1.1 deleted successfully") in
  let w' := perform (Delete Game "1.1") two_releases in
  run (delete_catalog Game "1.1") two_releases = (inr resp, w')
  ∧ status resp = 200
  ∧ run (delete_catalog Game "1.1") w'
    = (inr (mkResponse 404 (JsonError "Version 1.1 not found")), w')
  ∧ run (activate_catalog Game "1.1") w'
    = (inr (mkResponse 404 (JsonError "Version 1.1 not found")), w').
Proof.
  intros resp w'.
  assert (run (delete_catalog Game "1.1") two_releases = (inr resp, w')) as Hrun
    by (vm_compute; reflexivity).
  split; [exact Hrun|]. split; [reflexivity|].
  exact (deleted_version_is_unknown Game "1.1" two_releases w' resp Hrun eq_refl).
Defined.

Lemma version_query_finds_active_witness :
  well_formed (catalog Game two_releases)
  ∧ ∃ st body,
      run (get_current "http://localhost:8000" Game) two_releases
      = (inr (st, body), two_releases)
      ∧ (st = 404 ↔ catalog Game two_releases = [])
      ∧ (catalog Game two_releases ≠ [] →
         st = 200
         ∧ ∃ v url, v ∈ catalog Game two_releases ∧ is_active v = true
                    ∧ body = VersionInfo (version v) url (release_notes v)
                               (file_size v)).
Proof.
  split; [exact two_releases_well_formed|].
  exact (version_query_finds_active "http://localhost:8000" Game two_releases
           two_releases_well_formed).
Defined.

Lemma upload_then_version_query_witness :
  let request := upload_request "1.0" "build.zip" "abc" in
  let file := mkFileStorage "build.zip" "abc" in
  let resp := mkResponse 200 (JsonUploaded "Game version uploaded successfully" "1.0" 3) in
  let w' := perform (Upload "2024-01-01T00:00:00" request) empty_world in
  files request !! "game_file" = Some file
  ∧ run (upload_game_version "2024-01-01T00:00:00" request) empty_world = (inr resp, w')
  ∧ status resp = 200
  ∧ run (get_current "http://localhost:8000" Game) w'
    = (inr (200, VersionInfo "1.0" "http://localhost:8000/downloads/game-v1.0.zip"
                   "" 3), w').
Proof.
  intros request file resp w'.
  assert (run (upload_game_version "2024-01-01T00:00:00" request) empty_world
          = (inr resp, w')) as Hrun by (vm_compute; reflexivity).
  split; [reflexivity|]. split; [exact Hrun|]. split; [reflexivity|].
  exact (upload_then_version_query "http://localhost:8000" "2024-01-01T00:00:00"
           request file empty_world w' resp eq_refl Hrun eq_refl).
Defined.


Lemma two_users_ok : table_ok two_users.
Proof. split; [compute_done|]. split; [compute_done|]. compute_done. Defined.

Lemma create_user_unique_name_witness :
  let taken := create_user "alice" "password" "salt" "2024-01-03 00:00:00" two_users in
  let fresh := create_user "bob" "password" "salt" "2024-01-03 00:00:00" two_users in
  table_ok two_users
  ∧ taken = (false, two_users)
  ∧ fresh.1 = true
  ∧ table_ok fresh.2.
Proof.
  intros taken fresh.
  destruct (create_user_unique_name "bob" "password" "salt" "2024-01-03 00:00:00"
              two_users two_users_ok) as (_ & _ & _ & Hok).
  split; [exact two_users_ok|]. split; [reflexivity|]. split; [reflexivity|].
  exact Hok.
Defined.

Lemma created_user_authenticates_witness :
  let db' := (create_user "bob" "password" "salt" "2024-01-03 00:00:00" two_users).2 in
  create_user "bob" "password" "salt" "2024-01-03 00:00:00" two_users = (true, db')
  ∧ authenticate_user "bob" "password" db' = Some 3
  ∧ ∀ other pw, other ≠ "bob" →
      authenticate_user other pw db' = authenticate_user other pw two_users.
Proof.
  intros db'. split; [reflexivity|].
  exact (created_user_authenticates "bob" "password" "salt" "2024-01-03 00:00:00"
           two_users db' eq_refl).
Defined.

Lemma delete_user_keeps_a_user_witness :
  table_ok two_users
  ∧ users two_users ≠ []
  ∧ ((delete_user 1 two_users).1 = false ↔ List.length (users two_users) ≤ 1)
  ∧ users (delete_user 1 two_users).2 ≠ []
  ∧ table_ok (delete_user 1 two_users).2.
Proof.
  assert (users two_users ≠ []) as Hne by compute_done.
  split; [exact two_users_ok|]. split; [exact Hne|].
  exact (delete_user_keeps_a_user 1 two_users two_users_ok Hne).
Defined.

Lemma deleted_user_is_rejected_witness :
  let alice := mkUser 2 "alice" "wonderland" "2024-01-02 00:00:00" true in
  let db' := (delete_user 2 two_users).2 in
  table_ok two_users
  ∧ alice ∈ users two_users
  ∧ delete_user (user_id alice) two_users = (true, db')
  ∧ authenticate_user "alice" "wonderland" two_users = Some 2
  ∧ authenticate_user (username alice) "wonderland" db' = None.
Proof.
  intros alice db'.
  assert (alice ∈ users two_users) as Hin by (right; left).
  split; [exact two_users_ok|]. split; [exact Hin|]. split; [reflexivity|].
  split; [reflexivity|].
  exact (deleted_user_is_rejected alice "wonderland" two_users db'
           two_users_ok Hin eq_refl).
Defined.

Lemma init_database_default_admin_witness :
  let empty := mkUserDb [] 0 in
  users empty = []
  ∧ authenticate_user "admin" "admin123"
      (init_database "salt" "2024-01-01 00:00:00" empty) = Some 1
  ∧ users two_users ≠ []
  ∧ init_database "salt" "2024-01-01 00:00:00" two_users = two_users.
Proof.
  intros empty.
  destruct (init_database_default_admin "salt" "2024-01-01 00:00:00" "salt" "later" empty)
    as (Hadmin & _ & _).
  destruct (init_database_default_admin "salt" "2024-01-01 00:00:00" "salt" "later"
              two_users) as (_ & Hkeep & _).
  assert (users two_users ≠ []) as Hne by compute_done.
  split; [reflexivity|]. split; [exact (Hadmin eq_refl)|]. split; [exact Hne|].
  exact (Hkeep Hne).
Defined.

Lemma user_table_never_empty_witness :
  let ops := [DeleteUser 1; DeleteUser 1; CreateUser "bob" "password" "s" "t";
              DeleteUser 1; DeleteUser 2] in
  let db' := foldl (λ d op, user_step op d)
               (init_database "salt" "2024-01-01 00:00:00" (mkUserDb [] 0)) ops in
  table_ok (mkUserDb [] 0)
  ∧ users db' ≠ [] ∧ table_ok db'.
Proof.
  intros ops db'.
  assert (table_ok (mkUserDb [] 0)) as Hok.
  { split; [constructor|]. split; constructor. }
  split; [exact Hok|].
  exact (user_table_never_empty "salt" "2024-01-01 00:00:00" (mkUserDb [] 0) ops Hok).
Defined.

